(** * Policy learning notebook: value estimators, doubly-robust scores,
      rankings and sample splitting

    Shallow embedding of the helper routines and of the array pipeline of
    [notebooks/6_Policy_Learning_1.py].

    Numbers.  The notebook computes with IEEE doubles through numpy and
    pandas.  Two models of them are used.

    - Properties of special values, of order and of the structure of the
      computation (which array is read, which is written, which rows are
      swept) are stated over exact numbers: a finite value is a rational
      ([Qc], rationals in lowest terms), and the three special values that
      numpy produces instead of raising ([inf], [-inf], [nan]) are kept,
      with the IEEE rules for them.  Columns of the data set hold finite
      values.
    - Properties that rounding or overflow decide are stated over binary64
      numbers (module [B64]), the arithmetic numpy computes in.

    Sample splitting is followed through the cells by the rows each value
    was learned from (module [Flow]). *)

From Stdlib Require Import QArith Qcanon ZArith List Bool Lia Arith.
From Stdlib Require Import Permutation Sorted.
From Stdlib Require Floats.
Set Warnings "-inexact-float".
Import ListNotations.

Open Scope Qc_scope.

(* ================================================================== *)
(** ** Numbers: exact rationals extended with the IEEE special values *)
(* ================================================================== *)

Inductive fnum : Type :=
| Fin (q : Qc)
| PInf
| NInf
| NaN.

Definition fnum_eq_dec (x y : fnum) : {x = y} + {x <> y}.
Proof. decide equality. apply Qc_eq_dec. Defined.

Definition is_nan (x : fnum) : bool :=
  match x with NaN => true | _ => false end.

(** The infinity with the sign of [q]; [0 * inf] is [nan]. *)
Definition inf_of_sign (q : Qc) : fnum :=
  match q ?= 0 with
  | Eq => NaN
  | Gt => PInf
  | Lt => NInf
  end.

Definition fopp (x : fnum) : fnum :=
  match x with
  | Fin q => Fin (- q)
  | PInf => NInf
  | NInf => PInf
  | NaN => NaN
  end.

Definition fadd (x y : fnum) : fnum :=
  match x, y with
  | NaN, _ | _, NaN => NaN
  | Fin a, Fin b => Fin (a + b)
  | PInf, NInf | NInf, PInf => NaN
  | PInf, _ | _, PInf => PInf
  | NInf, _ | _, NInf => NInf
  end.

Definition fsub (x y : fnum) : fnum := fadd x (fopp y).

Definition fmul (x y : fnum) : fnum :=
  match x, y with
  | NaN, _ | _, NaN => NaN
  | Fin a, Fin b => Fin (a * b)
  | Fin a, PInf | PInf, Fin a => inf_of_sign a
  | Fin a, NInf | NInf, Fin a => inf_of_sign (- a)
  | PInf, PInf | NInf, NInf => PInf
  | PInf, NInf | NInf, PInf => NInf
  end.

(** numpy division: a zero divisor gives [inf], [-inf] or [nan] (with a
    warning), never an exception. *)
Definition fdiv (x y : fnum) : fnum :=
  match x, y with
  | NaN, _ | _, NaN => NaN
  | Fin a, Fin b =>
      if Qc_eq_bool b 0 then inf_of_sign a else Fin (a / b)
  | Fin _, PInf | Fin _, NInf => Fin 0
  | PInf, Fin b => match b ?= 0 with Lt => NInf | _ => PInf end
  | NInf, Fin b => match b ?= 0 with Lt => PInf | _ => NInf end
  | _, _ => NaN
  end.

(** [x ** 2] *)
Definition fsq (x : fnum) : fnum := fmul x x.

Definition b2q (b : bool) : Qc := if b then 1 else 0.

(** Integer and decimal literals. *)
Definition ofZ (z : Z) : Qc := Q2Qc (inject_Z z).
Definition frac (z : Z) (p : positive) : Qc := Q2Qc (z # p).

Definition nat2q (n : nat) : Qc := ofZ (Z.of_nat n).

(* ================================================================== *)
(** ** Arrays and reductions                                           *)
(* ================================================================== *)

Definition Qcsum (l : list Qc) : Qc := fold_right Qcplus 0 l.

(** Element-wise binary operation; numpy and pandas raise when the two
    operands differ in length, which is [None] here. *)
Fixpoint zip_with {A B C} (f : A -> B -> C) (l : list A) (m : list B)
  : option (list C) :=
  match l, m with
  | [], [] => Some []
  | x :: l', y :: m' =>
      match zip_with f l' m' with
      | Some r => Some (f x y :: r)
      | None => None
      end
  | _, _ => None
  end.

(** Boolean-mask selection [v[mask]] on operands of equal length. *)
Fixpoint select {A} (v : list A) (mask : list bool) : list A :=
  match v, mask with
  | x :: v', b :: mask' => if b then x :: select v' mask' else select v' mask'
  | _, _ => []
  end.

(** [np.sum] of a boolean array: the number of [True]. *)
Definition count_true (m : list bool) : nat := length (filter id m).

(** [np.mean] of a column of finite values; the mean of an empty column is
    [nan] (pandas returns it explicitly; numpy computes [0/0]). *)
Definition np_mean (l : list Qc) : fnum :=
  match l with
  | [] => NaN
  | _ => Fin (Qcsum l / nat2q (length l))
  end.

(** [np.mean] of a boolean array: the fraction of [True]. *)
Definition np_mean_bool (m : list bool) : fnum :=
  np_mean (map b2q m).

(** [np.var], population variance ([ddof = 0]). *)
Definition np_var (l : list Qc) : fnum :=
  match l with
  | [] => NaN
  | _ =>
      let m := Qcsum l / nat2q (length l) in
      Fin (Qcsum (map (fun v => (v - m) * (v - m)) l) / nat2q (length l))
  end.

(** Exceptions: [None] is a raised exception. *)
Definition obind {A B} (o : option A) (k : A -> option B) : option B :=
  match o with
  | Some a => k a
  | None => None
  end.

Notation "x <- e ;; k" := (obind e (fun x => k))
  (at level 61, e at next level, right associativity).

(* ================================================================== *)
(** ** Policy value estimator based on sample means: [extr_val_sd]     *)
(* ================================================================== *)

Section ExtrValSd.

(** [np.sqrt] is taken as a parameter: the exact model has no square
    roots.  The notebook only applies it to the variance of the
    estimate and to sample sizes. *)
Variable np_sqrt : fnum -> fnum.

(** [c_1 = a & (w_eval == 1)] *)
Definition stratum_1 (w_eval : list Qc) (a : list bool) : option (list bool) :=
  zip_with (fun ai wi => ai && Qc_eq_bool wi 1) a w_eval.

(** [c_0 = np.logical_not(a) & (w_eval == 0)] *)
Definition stratum_0 (w_eval : list Qc) (a : list bool) : option (list bool) :=
  zip_with (fun ai wi => negb ai && Qc_eq_bool wi 0) a w_eval.

(** The units that received the treatment, [w_eval == 1]. *)
Definition is_treated (w_eval : list Qc) : list bool :=
  map (fun wi => Qc_eq_bool wi 1) w_eval.

(** The assignment vector of the policy that treats every unit. *)
Definition treat_everyone (n : nat) : list bool := repeat true n.

(** The two terms of the value estimate and of its variance. *)
Definition mean_1 (y_eval : list Qc) (c_1 a : list bool) (cost : Qc) : fnum :=
  fmul (np_mean (map (fun y => y - cost) (select y_eval c_1))) (np_mean_bool a).

Definition mean_0 (y_eval : list Qc) (c_0 a : list bool) : fnum :=
  fmul (np_mean (select y_eval c_0)) (np_mean_bool (map negb a)).

Definition var_1 (y_eval : list Qc) (c_1 a : list bool) : fnum :=
  fmul (fdiv (np_var (select y_eval c_1)) (Fin (nat2q (count_true c_1))))
       (fsq (np_mean_bool a)).

Definition var_0 (y_eval : list Qc) (c_0 a : list bool) : fnum :=
  fmul (fdiv (np_var (select y_eval c_0)) (Fin (nat2q (count_true c_0))))
       (fsq (np_mean_bool (map negb a))).

(** [cost] is the optional argument, 0 when omitted.  The three columns
    must have one length: the masks and the frame columns are combined
    element by element. *)
Definition extr_val_sd (y_eval w_eval : list Qc) (a : list bool) (cost : Qc)
  : option (fnum * fnum) :=
  c_1 <- stratum_1 w_eval a ;;
  c_0 <- stratum_0 w_eval a ;;
  if Nat.eqb (length y_eval) (length a) then
    let val_est := fadd (mean_1 y_eval c_1 a cost) (mean_0 y_eval c_0 a) in
    let var_sqr := np_sqrt (fadd (var_1 y_eval c_1 a) (var_0 y_eval c_0 a)) in
    Some (val_est, var_sqr)
  else None.

End ExtrValSd.

(** A concrete [np.sqrt], used to run the estimators on examples: exact on
    [nan] and the infinities, and the integer square root scaled to six
    decimal places on finite values. *)
Definition np_sqrt_model (x : fnum) : fnum :=
  match x with
  | NaN => NaN
  | NInf => NaN
  | PInf => PInf
  | Fin q =>
      match q ?= 0 with
      | Lt => NaN
      | _ =>
          let n := Qnum q in
          let d := Zpos (Qden q) in
          Fin (Q2Qc (Qmake (Z.sqrt (n * d * 1000000000000))
                           (Pos.mul (Qden q) 1000000)))
      end
  end.

(* ================================================================== *)
(** ** Policy value estimator based on AIPW scores                     *)
(* ================================================================== *)

Section AipwValue.

Variable np_sqrt : fnum -> fnum.

(** [gamma_hat_pi = pi_hat * gamma_hat_1 + (1 - pi_hat) * gamma_hat_0]
    (cells 7, 11 and 23).  The policy decision enters as 0 or 1. *)
Definition gamma_hat_pi (pi_hat : list bool) (gamma_hat_1 gamma_hat_0 : list Qc)
  : option (list Qc) :=
  t1 <- zip_with (fun p g => b2q p * g) pi_hat gamma_hat_1 ;;
  t0 <- zip_with (fun p g => (1 - b2q p) * g) pi_hat gamma_hat_0 ;;
  zip_with Qcplus t1 t0.

(** Cell 18, the evaluation of the policy tree on the simulated data:
    [gamma_hat_pi = pi_hat + gamma_hat_1 + (1 - pi_hat) * gamma_hat_0]. *)
Definition gamma_hat_pi_cell18 (pi_hat : list bool)
           (gamma_hat_1 gamma_hat_0 : list Qc) : option (list Qc) :=
  t1 <- zip_with (fun p g => b2q p + g) pi_hat gamma_hat_1 ;;
  t0 <- zip_with (fun p g => (1 - b2q p) * g) pi_hat gamma_hat_0 ;;
  zip_with Qcplus t1 t0.

(** [np.mean(g), np.std(g) / np.sqrt(len(g))] *)
Definition mean_and_stderr (g : list Qc) : fnum * fnum :=
  (np_mean g,
   fdiv (np_sqrt (np_var g)) (np_sqrt (Fin (nat2q (length g))))).

Definition aipw_value (pi_hat : list bool) (gamma_hat_1 gamma_hat_0 : list Qc)
  : option (fnum * fnum) :=
  g <- gamma_hat_pi pi_hat gamma_hat_1 gamma_hat_0 ;;
  Some (mean_and_stderr g).

Definition aipw_value_cell18 (pi_hat : list bool)
           (gamma_hat_1 gamma_hat_0 : list Qc) : option (fnum * fnum) :=
  g <- gamma_hat_pi_cell18 pi_hat gamma_hat_1 gamma_hat_0 ;;
  Some (mean_and_stderr g).

End AipwValue.

(* ================================================================== *)
(** ** Doubly-robust scores: [double_robust_score]                     *)
(* ================================================================== *)

(** The fitted forest, as far as the score calculator uses it: the cached
    residuals [(Y_res, T_res)] and the effect prediction, an external
    routine taken as a function of the covariate rows. *)
Record forest_model : Type := {
  residuals_ : list fnum * list fnum;
  effect : list (list fnum) -> list fnum
}.

(** Array arithmetic, element by element. *)
Definition vadd := zip_with fadd.
Definition vsub := zip_with fsub.
Definition vmul := zip_with fmul.
Definition vdiv := zip_with fdiv.
(** [1 - v] with the scalar broadcast. *)
Definition one_minus (v : list fnum) : list fnum := map (fsub (Fin 1)) v.

(** [e_hat = w - residuals[1]], the propensity the scores divide by. *)
Definition e_hat_of (fm : forest_model) (w : list fnum) : option (list fnum) :=
  vsub w (snd (residuals_ fm)).

Definition double_robust_score (fm : forest_model) (y w : list fnum)
           (x : list (list fnum)) : option (list fnum * list fnum) :=
  let residuals := residuals_ fm in
  let tau_hat := effect fm x in
  e_hat <- e_hat_of fm w ;;
  y_hat <- vsub y (fst residuals) ;;
  t1 <- vmul (one_minus e_hat) tau_hat ;;
  mu_hat_1 <- vadd y_hat t1 ;;
  t2 <- vmul e_hat tau_hat ;;
  mu_hat_0 <- vsub y_hat t2 ;;
  t3 <- vdiv w e_hat ;;
  t4 <- vsub y mu_hat_1 ;;
  t5 <- vmul t3 t4 ;;
  gamma_hat_1 <- vadd mu_hat_1 t5 ;;
  t6 <- vdiv (one_minus w) (one_minus e_hat) ;;
  t7 <- vsub y mu_hat_0 ;;
  t8 <- vmul t6 t7 ;;
  gamma_hat_0 <- vadd mu_hat_0 t8 ;;
  Some (gamma_hat_1, gamma_hat_0).

(* ================================================================== *)
(** ** The same routine over a store of Python objects                 *)
(* ================================================================== *)

(** The arguments of [double_robust_score] are references to objects that
    the caller keeps using (the columns [y] and [w], the frame [x], the
    residual arrays cached inside the forest).  Every numpy or pandas
    operation of the body reads its operands and allocates its result. *)
Module Store.

Definition ref := nat.

Inductive obj : Type :=
| Series (v : list fnum)
| DataFrame (rows : list (list fnum)).

Definition store := list obj.

(** State and failure: [None] is a raised exception. *)
Definition M (A : Type) : Type := store -> option (A * store).

Definition ret {A} (a : A) : M A := fun s => Some (a, s).

Definition bind {A B} (m : M A) (k : A -> M B) : M B :=
  fun s =>
    match m s with
    | Some (a, s') => k a s'
    | None => None
    end.

Definition raise {A} : M A := fun _ => None.

Definition lift {A} (o : option A) : M A :=
  match o with
  | Some a => ret a
  | None => raise
  end.

Definition load_series (r : ref) : M (list fnum) :=
  fun s =>
    match nth_error s r with
    | Some (Series v) => Some (v, s)
    | _ => None
    end.

Definition load_frame (r : ref) : M (list (list fnum)) :=
  fun s =>
    match nth_error s r with
    | Some (DataFrame rows) => Some (rows, s)
    | _ => None
    end.

Definition alloc (o : obj) : M ref :=
  fun s => Some (length s, s ++ [o]).

Notation "x <-- e ;; k" := (bind e (fun x => k))
  (at level 61, e at next level, right associativity).

(** [a op b] on two arrays: a new array. *)
Definition binop (f : fnum -> fnum -> fnum) (a b : ref) : M ref :=
  va <-- load_series a ;;
  vb <-- load_series b ;;
  r <-- lift (zip_with f va vb) ;;
  alloc (Series r).

(** [1 - a]: a new array. *)
Definition rsub1 (a : ref) : M ref :=
  va <-- load_series a ;;
  alloc (Series (one_minus va)).

(** The forest object: where its cached residuals live, and its effect
    prediction. *)
Record forest_obj : Type := {
  residuals_ref : ref * ref;
  effect_fn : list (list fnum) -> list fnum
}.

(** [forest_model.effect(x)]: a new array. *)
Definition call_effect (fm : forest_obj) (x : ref) : M ref :=
  rows <-- load_frame x ;;
  alloc (Series (effect_fn fm rows)).

Definition double_robust_score (fm : forest_obj) (y w x : ref)
  : M (ref * ref) :=
  let residuals := residuals_ref fm in
  tau_hat <-- call_effect fm x ;;
  e_hat <-- binop fsub w (snd residuals) ;;
  y_hat <-- binop fsub y (fst residuals) ;;
  om_e <-- rsub1 e_hat ;;
  t1 <-- binop fmul om_e tau_hat ;;
  mu_hat_1 <-- binop fadd y_hat t1 ;;
  t2 <-- binop fmul e_hat tau_hat ;;
  mu_hat_0 <-- binop fsub y_hat t2 ;;
  t3 <-- binop fdiv w e_hat ;;
  t4 <-- binop fsub y mu_hat_1 ;;
  t5 <-- binop fmul t3 t4 ;;
  gamma_hat_1 <-- binop fadd mu_hat_1 t5 ;;
  om_w <-- rsub1 w ;;
  om_e' <-- rsub1 e_hat ;;
  t6 <-- binop fdiv om_w om_e' ;;
  t7 <-- binop fsub y mu_hat_0 ;;
  t8 <-- binop fmul t6 t7 ;;
  gamma_hat_0 <-- binop fadd mu_hat_0 t8 ;;
  ret (gamma_hat_1, gamma_hat_0).

(** What a reference holds. *)
Definition series_at (s : store) (r : ref) : option (list fnum) :=
  match nth_error s r with
  | Some (Series v) => Some v
  | _ => None
  end.

Definition frame_at (s : store) (r : ref) : option (list (list fnum)) :=
  match nth_error s r with
  | Some (DataFrame rows) => Some rows
  | _ => None
  end.

(** The forest as a value, read off the store. *)
Definition forest_at (s : store) (fm : forest_obj) : option forest_model :=
  r0 <- series_at s (fst (residuals_ref fm)) ;;
  r1 <- series_at s (snd (residuals_ref fm)) ;;
  Some {| residuals_ := (r0, r1); effect := effect_fn fm |}.

(** The store after the call keeps every object of the store before. *)
Definition preserved (s s' : store) : Prop :=
  forall r, (r < length s)%nat -> nth_error s' r = nth_error s r.

End Store.

(* ================================================================== *)
(** ** Rankings and the sorted frame                                   *)
(* ================================================================== *)

Section Sorting.

Context {K : Type}.
Variable leb : K -> K -> bool.
Variable d : K.
Variable keys : list K.

Definition key_leb (i j : nat) : bool := leb (nth i keys d) (nth j keys d).

Definition key_le (i j : nat) : Prop := key_leb i j = true.

Fixpoint insert_idx (i : nat) (l : list nat) : list nat :=
  match l with
  | [] => [i]
  | j :: l' => if key_leb i j then i :: j :: l' else j :: insert_idx i l'
  end.

(** Positions [0 .. n-1] in increasing order of their key; positions
    with equal keys keep their order (a stable sort; numpy leaves the
    order of ties unspecified). *)
Definition sort_idx : list nat :=
  fold_right insert_idx [] (seq 0 (length keys)).

End Sorting.

Definition Qcleb (x y : Qc) : bool := Qle_bool x y.

(** [v.argsort()] *)
Definition argsort (v : list Qc) : list nat := sort_idx Qcleb 0 v.

(** [-v] *)
Definition vneg (v : list Qc) : list Qc := map Qcopp v.

(** Cell 33: [rank_ignore_cost = (-tau_hat).argsort()],
    [rank_ratio = (-gamm_hat).argsort()]; cell 39:
    [rank_iv = (-rho_iv).argsort()]. *)
Definition rank_ignore_cost (tau_hat : list Qc) : list nat := argsort (vneg tau_hat).
Definition rank_ratio (gamm_hat : list Qc) : list nat := argsort (vneg gamm_hat).
Definition rank_iv (rho_iv : list Qc) : list nat := argsort (vneg rho_iv).

(** Position of unit [i] in an ordering. *)
Fixpoint index_of (i : nat) (l : list nat) : option nat :=
  match l with
  | [] => None
  | j :: l' => if Nat.eqb i j then Some O else option_map S (index_of i l')
  end.

(** Unit [i] comes before unit [j] in the ordering. *)
Definition precedes (l : list nat) (i j : nat) : Prop :=
  exists p q, index_of i l = Some p /\ index_of j l = Some q /\ (p < q)%nat.

(** The ratio the text asks to rank by, [tau_hat / gamm_hat]. *)
Definition ratio_at (tau_hat gamm_hat : list Qc) (i : nat) : fnum :=
  fdiv (Fin (nth i tau_hat 0)) (Fin (nth i gamm_hat 0)).

(** [ipw.sort_values(rank_col)[col]]: the rows of the frame in increasing
    order of the rank column, then the column [col].  Assigning a rank
    column of the wrong length raises. *)
Definition row_order (rank_col : list nat) : list nat :=
  sort_idx Nat.leb O rank_col.

(* ================================================================== *)
(** ** Rows and slices                                                 *)
(* ================================================================== *)

(** Row positions of a frame with [n] rows. *)
Definition rows (n : nat) : list nat := seq 0 n.

(** [v.iloc[: k]] and [v.iloc[k :]] *)
Definition iloc_to {A} (k : nat) (v : list A) : list A := firstn k v.
Definition iloc_from {A} (k : nat) (v : list A) : list A := skipn k v.

(* ================================================================== *)
(** ** The rest of the pipeline                                        *)
(* ================================================================== *)

(** *** Cell 20: the cost of treatment is subtracted in place *)

Module Cell20.

Fixpoint update {A} (l : list A) (i : nat) (v : A) : list A :=
match l, i with
| [], _ => []
| _ :: l', O => v :: l'
| x :: l', S i' => x :: update l' i' v
end.

(** [s -= cost] on a column: the object itself is updated. *)
Definition isub_scalar (r : Store.ref) (cost : fnum) : Store.M unit :=
fun s =>
  match nth_error s r with
  | Some (Store.Series v) =>
      Some (tt, update s r (Store.Series (map (fun g => fsub g cost) v)))
  | _ => None
  end.

(** [gamma_hat_1, gamma_hat_0 = double_robust_score(forest_aipw, y, w, x)]
  followed by [gamma_hat_1 -= cost]. *)
Definition scores_net_of_cost (fm : Store.forest_obj) (y w x : Store.ref)
         (cost : fnum) : Store.M (Store.ref * Store.ref) :=
Store.bind (Store.double_robust_score fm y w x) (fun p =>
Store.bind (isub_scalar (fst p) cost) (fun _ =>
Store.ret p)).

End Cell20.

(** *** Cell 32: inverse-propensity-weighted benefit and cost *)

(** [e = 0.5] *)
Definition e_known : Qc := frac 1 2.

(** [train = int(nrow / 2)] and [n_test = int(nrow - nrow / 2)] *)
Definition train_rows (nrow : nat) : nat := (nrow / 2)%nat.
Definition n_test (nrow : nat) : nat := (nrow / 2)%nat.

(** [1 / n_test]: a division of Python numbers, which raises on 0. *)
Definition py_inv (n : nat) : option Qc :=
  match n with
  | O => None
  | _ => Some (1 / nat2q n)
  end.

(** [1 / n_test * (w / e - (1 - w) / (1 - e)) * y] on the evaluation
    slice. *)
Definition treatment_ipw (nrow : nat) (w y : list Qc) : option (list Qc) :=
  k <- py_inv (n_test nrow) ;;
  zip_with
    (fun wi yi => k * (wi / e_known - (1 - wi) / (1 - e_known)) * yi)
    (iloc_from (train_rows nrow) w) (iloc_from (train_rows nrow) y).

(** [1 / n_test * w / e * data['cost']] on the evaluation slice. *)
Definition cost_ipw (nrow : nat) (w cost : list Qc) : option (list Qc) :=
  k <- py_inv (n_test nrow) ;;
  zip_with (fun wi ci => k * wi / e_known * ci)
    (iloc_from (train_rows nrow) w) (iloc_from (train_rows nrow) cost).

(** *** Cell 42: area between a cost curve and the diagonal *)

(** [s.shift(1)]: every entry moves down one row, the first is [nan]. *)
Definition shift1 (s : list fnum) : list fnum :=
  match s with
  | [] => []
  | _ => NaN :: removelast s
  end.

(** [np.sum] of a column: pandas leaves the [nan] entries out, and the sum
    of none is 0. *)
Definition sum_skipna (s : list fnum) : fnum :=
  fold_right fadd (Fin 0) (filter (fun v => negb (is_nan v)) s).

(** [np.sum((value - cost) * (cost - cost.shift(1)))] *)
Definition area (value cost : list fnum) : option fnum :=
  d <- vsub value cost ;;
  step <- vsub cost (shift1 cost) ;;
  p <- vmul d step ;;
  Some (sum_skipna p).

(* ================================================================== *)
(** ** Sample splitting: the rows a policy is learned from             *)
(* ================================================================== *)

(** The cells of the notebook, as far as sample splitting goes.  A column
    is followed by the row labels it holds and, for each of them, by the
    rows of the data set whose data reached that entry through a fit.  An
    entry read from the data set has none: a policy always sees the
    covariates of the row it decides on. *)

Module Flow.

Definition rowset := list nat.

Record series : Type := {
  index : list nat;
  learned_from : nat -> rowset
}.


(** [s.iloc[: k]] and [s.iloc[k :]] *)
Definition iloc_to (k : nat) (s : series) : series :=
  {| index := firstn k (index s); learned_from := learned_from s |}.
Definition iloc_from (k : nat) (s : series) : series :=
  {| index := skipn k (index s); learned_from := learned_from s |}.

(** An operation on two columns, row by row. *)
Definition rowwise (a b : series) : series :=
  {| index := index a;
     learned_from := fun i => learned_from a i ++ learned_from b i |}.

(** A fitted estimator: the rows its training columns hold, and the rows
    those entries had been learned from. *)
Record estimator : Type := { fitted_on : rowset }.



(** [m.predict(x)], [m.effect(x)], and the residuals and predictions a
    forest keeps for its training rows.  A prediction rests on the rows
    the estimator was fitted on; an out-of-bag prediction for a row leaves
    out the trees that saw the row, so the row itself is not among them. *)
Definition predict (out_of_bag : bool) (m : estimator) (x : series) : series :=
  {| index := index x;
     learned_from := fun i =>
       (if out_of_bag then remove Nat.eq_dec i (fitted_on m) else fitted_on m)
       ++ learned_from x i |}.

Section Pipeline.

(** Whether the forest's predictions and residuals for its training rows
    are out-of-bag, as the comment in cell 10 says: they come from the
    forest library, not from the notebook. *)
Variable out_of_bag : bool.

(** [double_robust_score(forest_model, y, w, x)]: each score is computed,
    row by row, from the outcome and the treatment of the row, the
    residuals the forest keeps for it and the effect predicted for it. *)
Definition double_robust_score (forest_model : estimator) (y w x : series)
  : series :=
  let residuals := predict out_of_bag forest_model y in
  let tau_hat := predict out_of_bag forest_model x in
  let e_hat := rowwise w residuals in
  let y_hat := rowwise y residuals in
  let mu_hat := rowwise y_hat (rowwise e_hat tau_hat) in
  rowwise mu_hat (rowwise (rowwise w e_hat) (rowwise y mu_hat)).









End Pipeline.




End Flow.

(* ================================================================== *)
(** ** The arithmetic of the notebook: IEEE binary64                   *)
(* ================================================================== *)

(** numpy and pandas compute in binary64.  Where a property depends on
    rounding or on overflow, the routines are embedded over Rocq's
    primitive binary64 numbers, whose operations are the IEEE ones
    (rounding to nearest, ties to even). *)

Module B64.

Import PrimFloat FloatOps FloatAxioms SpecFloat.
Local Open Scope float_scope.

(** A Python [int] (a count, a length) where a float is expected. *)
Definition of_nat (n : nat) : float := of_uint63 (Uint63.of_Z (Z.of_nat n)).

(** A boolean where a number is expected. *)
Definition of_bool (b : bool) : float := if b then 1 else 0.

(** Array arithmetic, element by element; operands of different lengths
    raise. *)
Definition vadd := zip_with add.
Definition vsub := zip_with sub.
Definition vmul := zip_with mul.
Definition vdiv := zip_with div.
(** [1 - v] with the scalar broadcast. *)
Definition one_minus (v : list float) : list float := map (sub 1) v.

(** The rational number a finite binary64 value stands for. *)
Definition to_Q (x : float) : option Q :=
  match Prim2SF x with
  | SpecFloat.S754_zero _ => Some 0%Q
  | SpecFloat.S754_finite s m e =>
      Some ((if s then Qopp else id) (inject_Z (Zpos m) * Qpower 2 e))%Q
  | _ => None
  end.

(** *** Reductions *)

(** The entries added from left to right.  numpy and pandas choose the
    order of the additions by the length of the column (in blocks from
    eight entries on, and not the same way in every version); for a column
    of one or two entries every order gives this result.  The general
    statements below take the reductions as parameters and the concrete
    inputs stay within two entries per reduction. *)
Definition sum_seq (l : list float) : float := fold_left add l 0.

Definition mean_seq (l : list float) : float := sum_seq l / of_nat (length l).

(** Population variance ([ddof = 0]): the mean of the squared deviations
    from the mean. *)
Definition var_seq (l : list float) : float :=
  let m := mean_seq l in
  mean_seq (map (fun v => (v - m) * (v - m)) l).

Definition std_seq (l : list float) : float := sqrt (var_seq l).

(** [np.mean] of a boolean array: the number of [True], which is exact in
    every order of the additions, over the length. *)
Definition np_mean_bool (m : list bool) : float :=
  of_nat (count_true m) / of_nat (length m).

(** Classification of a binary64 value through its specification:
    infinite or [nan], and zero of either sign. *)
Definition special (s : SpecFloat.spec_float) : bool :=
  match s with
  | SpecFloat.S754_nan | SpecFloat.S754_infinity _ => true
  | _ => false
  end.

Definition is_zero_sf (s : SpecFloat.spec_float) : bool :=
  match s with
  | SpecFloat.S754_zero _ => true
  | _ => false
  end.

(** *** [extr_val_sd] *)

Section ExtrValSd.

(** The reductions over a column of outcomes, [np.mean] and [np.var], and
    [np.sqrt]: external routines. *)
Variable np_mean : list float -> float.
Variable np_var : list float -> float.
Variable np_sqrt : float -> float.

(** [c_1 = a & (w_eval == 1)] *)
Definition stratum_1 (w_eval : list float) (a : list bool) : option (list bool) :=
  zip_with (fun ai wi => ai && (wi =? 1)) a w_eval.

(** [c_0 = np.logical_not(a) & (w_eval == 0)] *)
Definition stratum_0 (w_eval : list float) (a : list bool) : option (list bool) :=
  zip_with (fun ai wi => negb ai && (wi =? 0)) a w_eval.

(** [mean_1 = np.mean(y_1 - cost) * np.mean(a)] *)
Definition mean_1 (y_eval : list float) (c_1 a : list bool) (cost : float) : float :=
  np_mean (map (fun y => y - cost) (select y_eval c_1)) * np_mean_bool a.

(** [mean_0 = np.mean(y_0) * np.mean(np.logical_not(a))] *)
Definition mean_0 (y_eval : list float) (c_0 a : list bool) : float :=
  np_mean (select y_eval c_0) * np_mean_bool (map negb a).

(** [var_1 = np.var(y_eval[c_1]) / np.sum(c_1) * np.mean(a)**2] *)
Definition var_1 (y_eval : list float) (c_1 a : list bool) : float :=
  np_var (select y_eval c_1) / of_nat (count_true c_1)
  * (np_mean_bool a * np_mean_bool a).

(** [var_0 = np.var(y_eval[c_0]) / np.sum(c_0)
             * np.mean(np.logical_not(a))**2] *)
Definition var_0 (y_eval : list float) (c_0 a : list bool) : float :=
  np_var (select y_eval c_0) / of_nat (count_true c_0)
  * (np_mean_bool (map negb a) * np_mean_bool (map negb a)).

Definition extr_val_sd (y_eval w_eval : list float) (a : list bool) (cost : float)
  : option (float * float) :=
  c_1 <- stratum_1 w_eval a ;;
  c_0 <- stratum_0 w_eval a ;;
  if Nat.eqb (length y_eval) (length a) then
    let val_est := mean_1 y_eval c_1 a cost + mean_0 y_eval c_0 a in
    let var_sqr := np_sqrt (var_1 y_eval c_1 a + var_0 y_eval c_0 a) in
    Some (val_est, var_sqr)
  else None.

(** The evaluation set in which the cost has been taken off the outcome
    of every unit of the stratum [c_1]. *)
Definition net_outcomes (y_eval w_eval : list float) (a : list bool) (cost : float)
  : option (list float) :=
  c_1 <- stratum_1 w_eval a ;;
  zip_with (fun y (b : bool) => if b then y - cost else y) y_eval c_1.

End ExtrValSd.

(** *** [double_robust_score] *)

(** The fitted forest, as far as the score calculator uses it: the cached
    residuals [(Y_res, T_res)] and the effect prediction, an external
    routine taken as a function of the covariate rows. *)
Record forest_model : Type := {
  residuals_ : list float * list float;
  effect : list (list float) -> list float
}.

(** [e_hat = w - residuals[1]], the propensity the scores divide by. *)
Definition e_hat_of (fm : forest_model) (w : list float) : option (list float) :=
  vsub w (snd (residuals_ fm)).

Definition double_robust_score (fm : forest_model) (y w : list float)
           (x : list (list float)) : option (list float * list float) :=
  let residuals := residuals_ fm in
  let tau_hat := effect fm x in
  e_hat <- e_hat_of fm w ;;
  y_hat <- vsub y (fst residuals) ;;
  t1 <- vmul (one_minus e_hat) tau_hat ;;
  mu_hat_1 <- vadd y_hat t1 ;;
  t2 <- vmul e_hat tau_hat ;;
  mu_hat_0 <- vsub y_hat t2 ;;
  t3 <- vdiv w e_hat ;;
  t4 <- vsub y mu_hat_1 ;;
  t5 <- vmul t3 t4 ;;
  gamma_hat_1 <- vadd mu_hat_1 t5 ;;
  t6 <- vdiv (one_minus w) (one_minus e_hat) ;;
  t7 <- vsub y mu_hat_0 ;;
  t8 <- vmul t6 t7 ;;
  gamma_hat_0 <- vadd mu_hat_0 t8 ;;
  Some (gamma_hat_1, gamma_hat_0).

(** *** Cell 5 and cell 7: AIPW scores with a known propensity *)

(** [e_hat = np.repeat(.5, n_row)] *)
Definition e_hat_known (n_row : nat) : list float := repeat 0.5 n_row.

(** [gamma_hat_1 = mu_hat_1 + W / e_hat * (Y - mu_hat_1)],
    [gamma_hat_0 = mu_hat_0 + (1 - W) / (1 - e_hat) * (Y - mu_hat_0)] *)
Definition aipw_scores (mu_hat_1 mu_hat_0 W Y e_hat : list float)
  : option (list float * list float) :=
  t1 <- vdiv W e_hat ;;
  t2 <- vsub Y mu_hat_1 ;;
  t3 <- vmul t1 t2 ;;
  gamma_hat_1 <- vadd mu_hat_1 t3 ;;
  t4 <- vdiv (one_minus W) (one_minus e_hat) ;;
  t5 <- vsub Y mu_hat_0 ;;
  t6 <- vmul t4 t5 ;;
  gamma_hat_0 <- vadd mu_hat_0 t6 ;;
  Some (gamma_hat_1, gamma_hat_0).

(** *** Cell 23 and cell 24: the AIPW estimates on the evaluation rows *)

(** [pi_hat * gamma_hat_1 + (1 - pi_hat) * gamma_hat_0], the policy a
    0/1 array. *)
Definition gamma_hat_pi (pi_hat : list bool) (gamma_hat_1 gamma_hat_0 : list float)
  : option (list float) :=
  t1 <- zip_with (fun p g => of_bool p * g) pi_hat gamma_hat_1 ;;
  t2 <- zip_with (fun p g => (1 - of_bool p) * g) pi_hat gamma_hat_0 ;;
  vadd t1 t2.

(** [a - b] on two columns of one frame of which [a] holds the rows from
    [train] on only: pandas aligns the two on their row labels, and a row
    that one of them lacks gets [nan]. *)
Definition align_sub (train : nat) (a b : list float) : list float :=
  map (fun i =>
         match (if Nat.leb train i then nth_error a (i - train) else None),
               nth_error b i with
         | Some u, Some v => u - v
         | _, _ => nan
         end)
      (seq 0 (Nat.max (length b) (train + length a))).

(** The entries that are not [nan]: the reductions of pandas skip the
    others. *)
Definition notna (s : list float) : list float :=
  filter (fun v => negb (is_nan v)) s.

Section Difference.

(** [np.mean] and [np.std] of a column without [nan] entries, and
    [np.sqrt]: external routines. *)
Variable np_mean : list float -> float.
Variable np_std : list float -> float.
Variable np_sqrt : float -> float.

(** [gamma_hat_1] and [gamma_hat_0] being the columns over all rows:
    [gamma_hat_pi = pi_hat * gamma_hat_1.iloc[train:]
                    + (1 - pi_hat) * gamma_hat_0.iloc[train:]],
    [gamma_hat_pi_diff = gamma_hat_pi - gamma_hat_0], then
    [np.mean(gamma_hat_pi_diff)] and
    [np.std(gamma_hat_pi_diff) / np.sqrt(len(gamma_hat_pi_diff))]. *)
Definition diff_aipw (train : nat) (pi_hat : list bool)
           (gamma_hat_1 gamma_hat_0 : list float) : option (float * float) :=
  g <- gamma_hat_pi pi_hat (skipn train gamma_hat_1) (skipn train gamma_hat_0) ;;
  let gamma_hat_pi_diff := align_sub train g gamma_hat_0 in
  Some (np_mean (notna gamma_hat_pi_diff),
        np_std (notna gamma_hat_pi_diff)
        / np_sqrt (of_nat (length gamma_hat_pi_diff))).

End Difference.

(** *** Rankings and cost curves *)

(** The order [argsort] sorts by: [nan] after every number. *)
Definition np_leb (x y : float) : bool := (x <=? y) || is_nan y.

(** [v.argsort()]; positions with equal keys keep their order here
    (numpy leaves the order of ties unspecified). *)
Definition argsort (v : list float) : list nat := sort_idx np_leb 0 v.

(** Cell 33: [rank_ignore_cost = (-tau_hat).argsort()],
    [rank_ratio = (-gamm_hat).argsort()]; cell 39:
    [rank_iv = (-rho_iv).argsort()]. *)
Definition rank_ignore_cost (tau_hat : list float) : list nat :=
  argsort (map opp tau_hat).
Definition rank_ratio (gamm_hat : list float) : list nat :=
  argsort (map opp gamm_hat).
Definition rank_iv (rho_iv : list float) : list nat :=
  argsort (map opp rho_iv).

(** [ipw.sort_values(rank_col)[col]]: the rows of the frame in increasing
    order of the rank column, then the column [col].  Assigning a rank
    column of the wrong length raises. *)
Definition sort_values (rank_col : list nat) (col : list float)
  : option (list float) :=
  if Nat.eqb (length rank_col) (length col)
  then Some (map (fun i => nth i col 0) (row_order rank_col))
  else None.

(** [np.cumsum] of an array: each entry added to the running total, in
    order. *)
Fixpoint accumulate (acc : float) (l : list float) : list float :=
  match l with
  | [] => []
  | x :: l' => (acc + x) :: accumulate (acc + x) l'
  end.

Definition np_cumsum (l : list float) : list float :=
  match l with
  | [] => []
  | x :: l' => x :: accumulate x l'
  end.

(** [np.cumsum] of a column of a frame: pandas runs the array routine with
    0 in the place of each [nan] and puts the [nan] back afterwards. *)
Definition cumsum (s : list float) : list float :=
  map (fun p => if is_nan (fst p) then nan else snd p)
      (combine s (np_cumsum (map (fun x => if is_nan x then 0 else x) s))).

Section CostCurves.

(** The totals the curves are divided by: [np.sum] of a column in cell
    35, Python's [sum] in cell 39.  External routines. *)
Variable np_sum : list float -> float.
Variable py_sum : list float -> float.

(** One curve: [np.cumsum(ipw.sort_values(rank)[col]) / total]. *)
Definition cumulative_curve (total : list float -> float)
           (rank_col : list nat) (col : list float) : option (list float) :=
  sorted <- sort_values rank_col col ;;
  Some (map (fun c => c / total col) (cumsum sorted)).

Definition treatment_value_ignore_cost (tau_hat treatment_ipw : list float) :=
  cumulative_curve np_sum (rank_ignore_cost tau_hat) treatment_ipw.
Definition treatment_value_ratio (gamm_hat treatment_ipw : list float) :=
  cumulative_curve np_sum (rank_ratio gamm_hat) treatment_ipw.
Definition treatment_valu_iv (rho_iv treatment_ipw : list float) :=
  cumulative_curve py_sum (rank_iv rho_iv) treatment_ipw.

End CostCurves.







(** *** Example data *)

(** A treated unit whose treatment residual is 1, that is, whose
    propensity [e_hat] is 0, and a treated unit whose treatment residual
    is [1e-20]. *)
Definition ex_zero_propensity : forest_model :=
  {| residuals_ := ([0], [1]); effect := fun _ => [1] |}.

(** Two units, the first treated, the second not, with treatment
    residuals [.4] and [-.6]. *)
Definition ex_two_units : forest_model :=
  {| residuals_ := ([0.7; 0.5], [0.4; -0.6]); effect := fun _ => [0.7; 0.2] |}.

Definition ex_small_residual : forest_model :=
  {| residuals_ := ([0], [1e-20]);
     effect := fun _ => [1] |}.

End B64.

(* ================================================================== *)
(** ** Example data                                                    *)
(* ================================================================== *)

(** One unit, treated, with treatment residual 1/2: a store holding the
    columns [y], [w], the frame [x] and the two residual arrays, and the
    forest object that refers to them. *)
Definition ex_store : Store.store :=
  [Store.Series [Fin 1]; Store.Series [Fin 1]; Store.DataFrame [[]];
   Store.Series [Fin 0]; Store.Series [Fin (frac 1 2)]].

Definition ex_forest_obj : Store.forest_obj :=
  {| Store.residuals_ref := (3%nat, 4%nat);
     Store.effect_fn := fun _ => [Fin 1] |}.

Definition ex_forest : forest_model :=
  {| residuals_ := ([Fin 0], [Fin (frac 1 2)]); effect := fun _ => [Fin 1] |}.

(* ================================================================== *)
(** * Properties                                                       *)
(* ================================================================== *)

(** ** Arithmetic of the extended numbers *)

Lemma fadd_nan_r x : fadd x NaN = NaN.
Proof. destruct x; reflexivity. Qed.

Lemma nat2q_S n : nat2q (S n) = nat2q n + 1.
Proof.
  unfold nat2q, ofZ. apply Qc_is_canon.
  unfold Qcplus, Q2Qc; cbn [this].
  rewrite !Qred_correct.
  rewrite Nat2Z.inj_succ. unfold Z.succ.
  rewrite inject_Z_plus. reflexivity.
Qed.

Lemma nat2q_0 : nat2q 0 = 0.
Proof. apply Qc_is_canon. reflexivity. Qed.

Lemma nat2q_S_neq0 n : nat2q (S n) <> 0.
Proof.
  intro H. apply (f_equal this) in H.
  unfold nat2q, ofZ, Q2Qc in H; cbn [this] in H.
  assert (E : (inject_Z (Z.of_nat (S n)) == 0)%Q).
  { rewrite <- (Qred_correct (inject_Z (Z.of_nat (S n)))). rewrite H. reflexivity. }
  unfold Qeq in E. cbn [Qnum Qden inject_Z] in E. lia.
Qed.

Lemma nat2q_neq0 n : n <> O -> nat2q n <> 0.
Proof. destruct n; [congruence | intros _; apply nat2q_S_neq0]. Qed.

(** ** Arrays *)

Lemma zip_with_length {A B C} (f : A -> B -> C) l m r :
  zip_with f l m = Some r -> length l = length m /\ length r = length l.
Proof.
  revert m r. induction l as [|x l IH]; intros [|y m] r H; simpl in H;
    try discriminate.
  - injection H as <-. auto.
  - destruct (zip_with f l m) as [r'|] eqn:E; [|discriminate].
    injection H as <-. destruct (IH _ _ E) as [H1 H2]. simpl. auto.
Qed.

Lemma zip_with_defined {A B C} (f : A -> B -> C) l m :
  length l = length m -> exists r, zip_with f l m = Some r.
Proof.
  revert m. induction l as [|x l IH]; intros [|y m] H; simpl in H;
    try discriminate.
  - now exists [].
  - injection H as H. destruct (IH _ H) as [r E].
    exists (f x y :: r). simpl. now rewrite E.
Qed.

Lemma select_length {A} (v : list A) mask :
  length v = length mask -> length (select v mask) = count_true mask.
Proof.
  revert mask. induction v as [|x v IH]; intros [|b mask] H; simpl in H;
    try discriminate; [reflexivity|].
  injection H as H. unfold count_true in *. simpl.
  destruct b; simpl; now rewrite IH.
Qed.

Lemma select_none {A} (v : list A) mask :
  count_true mask = O -> select v mask = [].
Proof.
  revert mask. induction v as [|x v IH]; intros [|b mask] H; try reflexivity.
  unfold count_true in *. destruct b; simpl in *; [discriminate | now apply IH].
Qed.

Lemma Qcsum_shift c l :
  Qcsum (map (fun y => y - c) l) = Qcsum l - nat2q (length l) * c.
Proof.
  induction l as [|x l IH].
  - simpl. rewrite nat2q_0. ring.
  - cbn [map Qcsum fold_right length]. fold (Qcsum (map (fun y => y - c) l)).
    fold (Qcsum l). rewrite IH, nat2q_S. ring.
Qed.

Lemma np_mean_finite l :
  l <> [] -> np_mean l = Fin (Qcsum l / nat2q (length l)).
Proof. destruct l; [congruence | reflexivity]. Qed.

Lemma nonempty_length {A} (l : list A) : length l <> O -> l <> [].
Proof. destruct l; simpl; congruence. Qed.

(** ** The sample-mean estimator [extr_val_sd] *)

Section ExtrValSdFacts.

Variable np_sqrt : fnum -> fnum.

Lemma extr_val_sd_unfold y w a cost c_1 c_0 :
  length y = length a ->
  stratum_1 w a = Some c_1 ->
  stratum_0 w a = Some c_0 ->
  extr_val_sd np_sqrt y w a cost =
  Some (fadd (mean_1 y c_1 a cost) (mean_0 y c_0 a),
        np_sqrt (fadd (var_1 y c_1 a) (var_0 y c_0 a))).
Proof.
  intros Hl H1 H0. unfold extr_val_sd. rewrite H1, H0. cbn [obind].
  rewrite Hl, Nat.eqb_refl. reflexivity.
Qed.

(** C5.  When the policy leaves a stratum empty (no unit with [a] true
    and [w = 1], or no unit with [a] false and [w = 0]), [extr_val_sd]
    raises nothing and returns [nan] both as value estimate and as
    standard error, provided [np.sqrt(nan)] is [nan]. *)
Theorem extr_val_sd_empty_stratum_nan y w a cost c_1 c_0 :
  np_sqrt NaN = NaN ->
  length y = length a ->
  stratum_1 w a = Some c_1 ->
  stratum_0 w a = Some c_0 ->
  count_true c_1 = O \/ count_true c_0 = O ->
  extr_val_sd np_sqrt y w a cost = Some (NaN, NaN).
Proof.
  intros Hs Hl H1 H0 Hempty.
  rewrite (extr_val_sd_unfold y w a cost c_1 c_0 Hl H1 H0).
  unfold mean_1, mean_0, var_1, var_0.
  destruct Hempty as [E | E]; rewrite (select_none y _ E); cbn [map np_mean np_var fmul fdiv fadd].
  - now rewrite Hs.
  - rewrite !fadd_nan_r. now rewrite Hs.
Qed.

Lemma stratum_1_treat_everyone w :
  stratum_1 w (treat_everyone (length w)) = Some (is_treated w).
Proof.
  unfold stratum_1, treat_everyone, is_treated.
  induction w as [|x w IH]; [reflexivity|].
  cbn [length repeat zip_with map]. now rewrite IH.
Qed.

Lemma stratum_0_treat_everyone w :
  stratum_0 w (treat_everyone (length w)) = Some (repeat false (length w)).
Proof.
  unfold stratum_0, treat_everyone.
  induction w as [|x w IH]; [reflexivity|].
  cbn [length repeat zip_with]. now rewrite IH.
Qed.

Lemma count_true_repeat_false n : count_true (repeat false n) = O.
Proof. unfold count_true. induction n; simpl; auto. Qed.

Lemma Qcsum_repeat_true n : Qcsum (map b2q (repeat true n)) = nat2q n.
Proof.
  induction n as [|n IH]; [now rewrite nat2q_0|].
  cbn [repeat map Qcsum fold_right]. fold (Qcsum (map b2q (repeat true n))).
  rewrite IH, nat2q_S. unfold b2q. ring.
Qed.

Lemma np_mean_bool_treat_everyone n :
  n <> O -> np_mean_bool (treat_everyone n) = Fin 1.
Proof.
  intros Hn. unfold np_mean_bool, treat_everyone.
  rewrite np_mean_finite
    by (apply nonempty_length; now rewrite length_map, repeat_length).
  rewrite Qcsum_repeat_true, length_map, repeat_length.
  f_equal. field. now apply nat2q_neq0.
Qed.

(** C3, as the code has it.  Under the policy that treats everyone, at
    cost 0 and with at least one treated unit, the treated-arm term
    [mean_1] is exactly the mean outcome among treated units; the
    control stratum [c_0] is empty, its term [mean_0] is [nan], and
    [extr_val_sd] returns [nan] as value estimate. *)
Theorem extr_val_sd_treat_everyone y w :
  length y = length w ->
  count_true (is_treated w) <> O ->
  let a := treat_everyone (length w) in
  exists c_1 c_0,
    stratum_1 w a = Some c_1 /\ stratum_0 w a = Some c_0 /\
    mean_1 y c_1 a 0 = np_mean (select y (is_treated w)) /\
    count_true c_0 = O /\
    mean_0 y c_0 a = NaN /\
    extr_val_sd np_sqrt y w a 0 = Some (NaN, np_sqrt NaN).
Proof.
  intros Hl Ht a.
  exists (is_treated w), (repeat false (length w)).
  assert (Hn : length w <> O).
  { intros E. destruct w; [now apply Ht | discriminate]. }
  assert (Hsel : select y (repeat false (length w)) = [])
    by (apply select_none, count_true_repeat_false).
  assert (Hla : length y = length a)
    by (unfold a, treat_everyone; now rewrite repeat_length).
  assert (Hm0 : mean_0 y (repeat false (length w)) a = NaN)
    by (unfold mean_0; now rewrite Hsel).
  split; [apply stratum_1_treat_everyone|].
  split; [apply stratum_0_treat_everyone|].
  split; [|split; [apply count_true_repeat_false|split; [exact Hm0|]]].
  - unfold mean_1, a. rewrite np_mean_bool_treat_everyone by exact Hn.
    assert (Hs : select y (is_treated w) <> []).
    { apply nonempty_length. rewrite select_length; [exact Ht|].
      unfold is_treated. now rewrite length_map. }
    rewrite !np_mean_finite
      by (try apply nonempty_length; rewrite ?length_map;
          try apply Hs; intros E; apply Hs; now apply length_zero_iff_nil).
    rewrite Qcsum_shift, length_map. cbn [fmul]. f_equal. field.
    apply nat2q_neq0. intros E. apply Hs. now apply length_zero_iff_nil.
  - rewrite (extr_val_sd_unfold y w a 0 _ _ Hla
               (stratum_1_treat_everyone w) (stratum_0_treat_everyone w)).
    rewrite Hm0, fadd_nan_r. unfold var_0. rewrite Hsel.
    cbn [np_var fdiv fmul]. now rewrite fadd_nan_r.
Qed.

End ExtrValSdFacts.

(** C3, as stated, fails: one treated unit with outcome 1 under the policy
    that treats everyone has mean treated outcome 1, and [extr_val_sd]
    returns [nan]. *)
Lemma extr_val_sd_treat_everyone_is_not_treated_mean :
  ~ (forall (np_sqrt : fnum -> fnum) (y w : list Qc),
        length y = length w ->
        count_true (is_treated w) <> O ->
        exists se,
          extr_val_sd np_sqrt y w (treat_everyone (length w)) 0 =
          Some (np_mean (select y (is_treated w)), se)).
Proof.
  intros H.
  destruct (H np_sqrt_model [1] [1] eq_refl) as [se E].
  - vm_compute. discriminate.
  - vm_compute in E. discriminate.
Qed.

Lemma extr_val_sd_treat_everyone_witness :
  exists c_1 c_0,
    stratum_1 [1; 0] (treat_everyone 2) = Some c_1 /\
    stratum_0 [1; 0] (treat_everyone 2) = Some c_0 /\
    mean_1 [1; 1] c_1 (treat_everyone 2) 0 = np_mean (select [1; 1] (is_treated [1; 0])) /\
    count_true c_0 = O /\
    mean_0 [1; 1] c_0 (treat_everyone 2) = NaN /\
    extr_val_sd np_sqrt_model [1; 1] [1; 0] (treat_everyone 2) 0
    = Some (NaN, np_sqrt_model NaN).
Proof.
  apply (extr_val_sd_treat_everyone np_sqrt_model [1; 1] [1; 0]).
  - reflexivity.
  - vm_compute. discriminate.
Defined.

Lemma extr_val_sd_empty_stratum_nan_witness :
  extr_val_sd np_sqrt_model [1; ofZ 2] [1; 1] [true; false] 0 = Some (NaN, NaN).
Proof.
  apply (extr_val_sd_empty_stratum_nan np_sqrt_model [1; ofZ 2] [1; 1] [true; false] 0
           [true; false] [false; false]).
  - reflexivity.
  - reflexivity.
  - reflexivity.
  - reflexivity.
  - right. reflexivity.
Defined.

(** Closed equations between rationals, and between structures of them,
    by evaluation. *)
Ltac qc_eval :=
  vm_compute;
  repeat first
    [ reflexivity
    | apply Qc_is_canon; vm_compute; reflexivity
    | progress f_equal ].

(** ** The AIPW value estimator *)

Lemma zip_with_nth {A B C} (f : A -> B -> C) l m r da db dc i :
  zip_with f l m = Some r -> (i < length r)%nat ->
  nth i r dc = f (nth i l da) (nth i m db).
Proof.
  revert m r i. induction l as [|x l IH]; intros [|y m] r i H Hi; simpl in H;
    try discriminate.
  - injection H as <-. simpl in Hi. lia.
  - destruct (zip_with f l m) as [r'|] eqn:E; [|discriminate].
    injection H as <-. destruct i as [|i]; [reflexivity|].
    simpl in *. apply IH; [exact E | lia].
Qed.

Lemma obind_some {A B} (o : option A) (k : A -> option B) b :
  obind o k = Some b -> exists a, o = Some a /\ k a = Some b.
Proof. destruct o; simpl; [eauto | discriminate]. Qed.

(** Cells 7, 11 and 23: each combined score is [pi * gamma_1 + (1 - pi) *
    gamma_0], with [pi] read as 0 or 1. *)
Lemma gamma_hat_pi_nth pi_hat g1 g0 g i :
  gamma_hat_pi pi_hat g1 g0 = Some g -> (i < length g)%nat ->
  nth i g 0 = b2q (nth i pi_hat false) * nth i g1 0
              + (1 - b2q (nth i pi_hat false)) * nth i g0 0.
Proof.
  unfold gamma_hat_pi. intros H Hi.
  apply obind_some in H as (t1 & E1 & H).
  apply obind_some in H as (t0 & E0 & H).
  pose proof (zip_with_length _ _ _ _ H) as [L1 L2].
  rewrite (zip_with_nth _ _ _ _ 0 0 0 i H Hi).
  rewrite (zip_with_nth _ _ _ _ false 0 0 i E1) by lia.
  rewrite (zip_with_nth _ _ _ _ false 0 0 i E0) by lia.
  reflexivity.
Qed.

Lemma gamma_hat_pi_treat_no_one g1 g0 :
  length g1 = length g0 ->
  gamma_hat_pi (repeat false (length g0)) g1 g0 = Some g0.
Proof.
  unfold gamma_hat_pi. revert g1.
  induction g0 as [|b g0 IH]; intros [|a g1] H; simpl in H; try discriminate;
    [reflexivity|].
  injection H as H. specialize (IH g1 H).
  apply obind_some in IH as (t1 & E1 & IH).
  apply obind_some in IH as (t0 & E0 & IH).
  cbn [length repeat zip_with]. rewrite E1. cbn [obind]. rewrite E0. cbn [obind].
  cbn [zip_with]. rewrite IH. f_equal. f_equal. unfold b2q. ring.
Qed.

(** Cells 7, 11 and 23: the estimate is the mean of the combined scores,
    and for the policy that treats no one it is the mean of the control-arm
    scores. *)
Lemma aipw_value_treat_no_one np_sqrt g1 g0 :
  length g1 = length g0 ->
  option_map fst (aipw_value np_sqrt (repeat false (length g0)) g1 g0)
  = Some (np_mean g0).
Proof.
  intros H. unfold aipw_value. now rewrite gamma_hat_pi_treat_no_one.
Qed.

(** C1 at cell 18.  With the policy that treats no one, one unit, treated
    score 1 and control score 2, the combined score of cell 18 is [0 + 1 +
    (1 - 0) * 2 = 3] and its mean 3, where the formula of the other cells
    gives the control score 2. *)
Theorem gamma_hat_pi_cell18_adds_policy :
  gamma_hat_pi_cell18 [false] [1] [ofZ 2] = Some [ofZ 3] /\
  option_map fst (aipw_value_cell18 np_sqrt_model [false] [1] [ofZ 2])
    = Some (Fin (ofZ 3)) /\
  gamma_hat_pi [false] [1] [ofZ 2] = Some [ofZ 2] /\
  np_mean [ofZ 2] = Fin (ofZ 2) /\
  Fin (ofZ 3) <> Fin (ofZ 2).
Proof.
  repeat split; try qc_eval.
  vm_compute. intros H. discriminate.
Qed.

(** ** [double_robust_score] over the store *)

Module StoreFacts.

Lemma series_at_app s ext r v :
  Store.series_at s r = Some v -> Store.series_at (s ++ ext) r = Some v.
Proof.
  unfold Store.series_at. intros H.
  destruct (nth_error s r) as [o|] eqn:E; [|discriminate].
  rewrite nth_error_app1 by (apply nth_error_Some; congruence).
  now rewrite E.
Qed.

Lemma series_at_new s v : Store.series_at (s ++ [Store.Series v]) (length s) = Some v.
Proof.
  unfold Store.series_at. rewrite nth_error_app2 by lia.
  now rewrite Nat.sub_diag.
Qed.

Lemma bind_binop {A} f a b (k : Store.ref -> Store.M A) s va vb :
  Store.series_at s a = Some va -> Store.series_at s b = Some vb ->
  Store.bind (Store.binop f a b) k s =
  match zip_with f va vb with
  | Some r => k (length s) (s ++ [Store.Series r])
  | None => None
  end.
Proof.
  unfold Store.series_at, Store.bind, Store.binop, Store.load_series, Store.bind. intros Ha Hb.
  destruct (nth_error s a) as [[va'|]|]; try discriminate.
  destruct (nth_error s b) as [[vb'|]|]; try discriminate.
  injection Ha as ->. injection Hb as ->.
  now destruct (zip_with f va vb).
Qed.

Lemma bind_rsub1 {A} a (k : Store.ref -> Store.M A) s va :
  Store.series_at s a = Some va ->
  Store.bind (Store.rsub1 a) k s = k (length s) (s ++ [Store.Series (one_minus va)]).
Proof.
  unfold Store.series_at, Store.bind, Store.rsub1, Store.load_series, Store.bind. intros Ha.
  destruct (nth_error s a) as [[va'|]|]; try discriminate.
  now injection Ha as ->.
Qed.

Lemma bind_call_effect {A} fm x (k : Store.ref -> Store.M A) s rows :
  Store.frame_at s x = Some rows ->
  Store.bind (Store.call_effect fm x) k s
  = k (length s) (s ++ [Store.Series (Store.effect_fn fm rows)]).
Proof.
  unfold Store.frame_at, Store.bind, Store.call_effect, Store.load_frame, Store.bind. intros Hx.
  destruct (nth_error s x) as [[|rows']|]; try discriminate.
  now injection Hx as ->.
Qed.

Lemma preserved_app s ext : Store.preserved s (s ++ ext).
Proof. intros r Hr. now apply nth_error_app1. Qed.

(** Finding what a reference holds in a store that has grown. *)
Ltac lookup :=
  repeat first
    [ eassumption
    | apply series_at_new
    | apply series_at_app ].

Ltac run_binop H :=
  erewrite bind_binop in H by lookup;
  match type of H with
  | _ = match zip_with ?f ?a ?b with _ => _ end =>
      destruct (zip_with f a b) eqn:?; cbn [obind];
      [ | exact H ]
  end.

(** The call computes the scores of the pure routine on the contents of
    its arguments, raises exactly when that one does, and only adds
    objects to the store. *)
Lemma double_robust_score_run fm y w x s yv wv rows fmv :
  Store.series_at s y = Some yv ->
  Store.series_at s w = Some wv ->
  Store.frame_at s x = Some rows ->
  Store.forest_at s fm = Some fmv ->
  match double_robust_score fmv yv wv rows with
  | Some (G1, G0) =>
      exists g1 g0 ext,
        Store.double_robust_score fm y w x s = Some ((g1, g0), s ++ ext) /\
        Store.series_at (s ++ ext) g1 = Some G1 /\
        Store.series_at (s ++ ext) g0 = Some G0
  | None => Store.double_robust_score fm y w x s = None
  end.
Proof.
  intros Hy Hw Hx Hfm.
  unfold Store.forest_at in Hfm.
  apply obind_some in Hfm as (res0 & H0 & Hfm).
  apply obind_some in Hfm as (res1 & H1 & Hfm).
  injection Hfm as <-.
  remember (Store.double_robust_score fm y w x s) as res eqn:H.
  unfold Store.double_robust_score in H.
  unfold double_robust_score, e_hat_of, vadd, vsub, vmul, vdiv.
  cbn [residuals_ effect fst snd].
  erewrite bind_call_effect in H by eassumption.
  run_binop H.
  run_binop H.
  erewrite bind_rsub1 in H by lookup.
  run_binop H.
  run_binop H.
  run_binop H.
  run_binop H.
  run_binop H.
  run_binop H.
  run_binop H.
  run_binop H.
  erewrite bind_rsub1 in H by lookup.
  erewrite bind_rsub1 in H by lookup.
  run_binop H.
  run_binop H.
  run_binop H.
  run_binop H.
  unfold Store.ret in H. subst res.
  do 3 eexists. split; [|split].
  - rewrite <- !app_assoc. reflexivity.
  - rewrite !app_assoc. lookup.
  - rewrite !app_assoc. lookup.
Qed.

Ltac defined_step :=
  match goal with
  | |- context [obind (zip_with ?f ?a ?b) _] =>
      let r := fresh "r" in
      let E := fresh "E" in
      let L := fresh "L" in
      destruct (zip_with_defined f a b) as [r E];
      [ unfold one_minus; rewrite ?length_map; congruence
      | rewrite E; cbn [obind];
        destruct (zip_with_length f a b r E) as [_ L];
        unfold one_minus in L; rewrite ?length_map in L ]
  end.

(** The pure routine returns as soon as its five columns have one
    length. *)
Lemma double_robust_score_defined fm y w x :
  length w = length y ->
  length (fst (residuals_ fm)) = length y ->
  length (snd (residuals_ fm)) = length y ->
  length (effect fm x) = length y ->
  exists G1 G0, double_robust_score fm y w x = Some (G1, G0).
Proof.
  intros Lw L0 L1 Lt.
  unfold double_robust_score, e_hat_of, vadd, vsub, vmul, vdiv.
  do 14 defined_step. eauto.
Qed.

(** C9.  Two calls whose arguments hold equal contents (outcomes,
    treatments, covariates, cached residuals, effect predictions), in
    whatever stores, both return, return equal score pairs, and leave
    every object of their store, the arguments among them, as it was. *)
Theorem double_robust_score_pure fm y w x s1 s2 yv wv rows fmv :
  Store.series_at s1 y = Some yv -> Store.series_at s2 y = Some yv ->
  Store.series_at s1 w = Some wv -> Store.series_at s2 w = Some wv ->
  Store.frame_at s1 x = Some rows -> Store.frame_at s2 x = Some rows ->
  Store.forest_at s1 fm = Some fmv -> Store.forest_at s2 fm = Some fmv ->
  length wv = length yv ->
  length (fst (residuals_ fmv)) = length yv ->
  length (snd (residuals_ fmv)) = length yv ->
  length (effect fmv rows) = length yv ->
  exists r1 s1' r2 s2' G1 G0,
    Store.double_robust_score fm y w x s1 = Some (r1, s1') /\
    Store.double_robust_score fm y w x s2 = Some (r2, s2') /\
    Store.series_at s1' (fst r1) = Some G1 /\ Store.series_at s2' (fst r2) = Some G1 /\
    Store.series_at s1' (snd r1) = Some G0 /\ Store.series_at s2' (snd r2) = Some G0 /\
    Store.preserved s1 s1' /\ Store.preserved s2 s2'.
Proof.
  intros Hy1 Hy2 Hw1 Hw2 Hx1 Hx2 Hf1 Hf2 Lw L0 L1 Lt.
  destruct (double_robust_score_defined fmv yv wv rows Lw L0 L1 Lt)
    as (G1 & G0 & HG).
  pose proof (double_robust_score_run fm y w x s1 yv wv rows fmv
                Hy1 Hw1 Hx1 Hf1) as R1.
  pose proof (double_robust_score_run fm y w x s2 yv wv rows fmv
                Hy2 Hw2 Hx2 Hf2) as R2.
  rewrite HG in R1, R2.
  destruct R1 as (a1 & a0 & ext1 & E1 & A1 & A0).
  destruct R2 as (b1 & b0 & ext2 & E2 & B1 & B0).
  exists (a1, a0), (s1 ++ ext1), (b1, b0), (s2 ++ ext2), G1, G0.
  cbn [fst snd]. repeat split; auto using preserved_app.
Qed.

End StoreFacts.

Lemma double_robust_score_pure_witness :
  exists r1 s1' r2 s2' G1 G0,
    Store.double_robust_score ex_forest_obj 0%nat 1%nat 2%nat ex_store
      = Some (r1, s1') /\
    Store.double_robust_score ex_forest_obj 0%nat 1%nat 2%nat
      (ex_store ++ [Store.Series [NaN]]) = Some (r2, s2') /\
    Store.series_at s1' (fst r1) = Some G1 /\
    Store.series_at s2' (fst r2) = Some G1 /\
    Store.series_at s1' (snd r1) = Some G0 /\
    Store.series_at s2' (snd r2) = Some G0 /\
    Store.preserved ex_store s1' /\
    Store.preserved (ex_store ++ [Store.Series [NaN]]) s2'.
Proof.
  apply (StoreFacts.double_robust_score_pure ex_forest_obj 0%nat 1%nat 2%nat
           ex_store (ex_store ++ [Store.Series [NaN]])
           [Fin 1] [Fin 1] [[]] ex_forest); reflexivity.
Defined.

(** ** Sorting positions by key *)

Section SortingFacts.

Context {K : Type}.
Variable leb : K -> K -> bool.
Variable d : K.
Variable keys : list K.

Hypothesis leb_total : forall x y, leb x y = true \/ leb y x = true.
Hypothesis leb_trans :
  forall x y z, leb x y = true -> leb y z = true -> leb x z = true.

Lemma insert_idx_perm i l :
  Permutation (insert_idx leb d keys i l) (i :: l).
Proof.
  induction l as [|j l IH]; simpl; [reflexivity|].
  destruct (key_leb leb d keys i j); [reflexivity|].
  rewrite IH. apply perm_swap.
Qed.

Lemma fold_insert_perm l :
  Permutation (fold_right (insert_idx leb d keys) [] l) l.
Proof.
  induction l as [|i l IH]; simpl; [reflexivity|].
  rewrite insert_idx_perm. now constructor.
Qed.

Lemma sort_idx_perm :
  Permutation (sort_idx leb d keys) (seq 0 (length keys)).
Proof. apply fold_insert_perm. Qed.

Lemma insert_idx_sorted i l :
  StronglySorted (key_le leb d keys) l ->
  StronglySorted (key_le leb d keys) (insert_idx leb d keys i l).
Proof.
  induction 1 as [|j l Hl IH Hj]; simpl.
  - repeat constructor.
  - destruct (key_leb leb d keys i j) eqn:E.
    + constructor; [now constructor|].
      constructor; [exact E|].
      eapply Forall_impl; [|exact Hj].
      intros k Hk. unfold key_le, key_leb in *. eauto.
    + constructor; [exact IH|].
      assert (Hji : key_le leb d keys j i).
      { unfold key_le, key_leb in *.
        destruct (leb_total (nth i keys d) (nth j keys d)); congruence. }
      eapply Permutation_Forall; [symmetry; apply insert_idx_perm|].
      now constructor.
Qed.

Lemma sort_idx_sorted : StronglySorted (key_le leb d keys) (sort_idx leb d keys).
Proof.
  unfold sort_idx. induction (seq 0 (length keys)) as [|i l IH]; simpl.
  - constructor.
  - now apply insert_idx_sorted.
Qed.

Lemma sort_idx_length : length (sort_idx leb d keys) = length keys.
Proof.
  rewrite (Permutation_length sort_idx_perm). apply length_seq.
Qed.

End SortingFacts.

(** Two sorted arrangements of the same elements coincide when the order
    is antisymmetric on them. *)
Lemma sorted_perm_unique {A} (R : A -> A -> Prop) (l1 l2 : list A) :
  (forall x y, In x l1 -> In y l1 -> R x y -> R y x -> x = y) ->
  StronglySorted R l1 -> StronglySorted R l2 -> Permutation l1 l2 ->
  l1 = l2.
Proof.
  revert l2. induction l1 as [|x l1 IH]; intros l2 Hanti S1 S2 P.
  - now apply Permutation_nil in P.
  - destruct l2 as [|y l2];
      [apply Permutation_sym, Permutation_nil in P; discriminate|].
    apply StronglySorted_inv in S1 as [S1 F1].
    apply StronglySorted_inv in S2 as [S2 F2].
    assert (E : x = y).
    { assert (Hx : In x (y :: l2)) by (eapply Permutation_in; [exact P | now left]).
      assert (Hy : In y (x :: l1))
        by (eapply Permutation_in; [symmetry; exact P | now left]).
      destruct Hx as [-> | Hx]; [reflexivity|].
      destruct Hy as [-> | Hy]; [reflexivity|].
      rewrite Forall_forall in F1, F2.
      apply Hanti; [now left | now right | now apply F1 | now apply F2]. }
    subst y. f_equal. apply IH; auto.
    + intros a b Ha Hb. apply Hanti; now right.
    + eapply Permutation_cons_inv; exact P.
Qed.



(** ** Rankings *)

Lemma Qcleb_total x y : Qcleb x y = true \/ Qcleb y x = true.
Proof.
  unfold Qcleb. rewrite !Qle_bool_iff.
  destruct (Qlt_le_dec x y) as [H | H]; [left; now apply Qlt_le_weak | now right].
Qed.

Lemma Qcleb_trans x y z :
  Qcleb x y = true -> Qcleb y z = true -> Qcleb x z = true.
Proof. unfold Qcleb. rewrite !Qle_bool_iff. apply Qle_trans. Qed.


Lemma Qcleb_opp x y : Qcleb (- x) (- y) = Qcleb y x.
Proof.
  apply eq_true_iff_eq. unfold Qcleb. rewrite !Qle_bool_iff.
  change ((- x <= - y) <-> (y <= x)). split; intros H.
  - apply Qcopp_le_compat in H. now rewrite !Qcopp_involutive in H.
  - now apply Qcopp_le_compat.
Qed.

Lemma Qcopp_zero : - 0 = 0.
Proof. ring. Qed.

Lemma nth_vneg i v : nth i (vneg v) 0 = - nth i v 0.
Proof.
  unfold vneg. rewrite <- Qcopp_zero at 1. apply map_nth.
Qed.


Lemma vneg_length v : length (vneg v) = length v.
Proof. apply length_map. Qed.

(** [argsort] lists every position once, in increasing order of the
    entries. *)
Lemma argsort_perm v : Permutation (argsort v) (seq 0 (length v)).
Proof. apply sort_idx_perm. Qed.

Lemma argsort_sorted v :
  StronglySorted (fun i j => Qcleb (nth i v 0) (nth j v 0) = true) (argsort v).
Proof. apply (sort_idx_sorted Qcleb 0 v Qcleb_total Qcleb_trans). Qed.

(** The rankings of cells 33 and 39 list the units in decreasing order of
    the estimate they are computed from. *)
Lemma rank_ignore_cost_sorted tau_hat :
  StronglySorted (fun i j => Qcleb (nth j tau_hat 0) (nth i tau_hat 0) = true)
                 (rank_ignore_cost tau_hat).
Proof.
  unfold rank_ignore_cost.
  eapply StronglySorted_ind with (P := fun l => StronglySorted _ l);
    [constructor | | apply argsort_sorted].
  intros i l Hl IH Hi. constructor; [exact IH|].
  eapply Forall_impl; [|exact Hi]. intros j Hj. cbv beta in Hj.
  now rewrite !nth_vneg, Qcleb_opp in Hj.
Qed.




(** C2 on an example.  With benefits [1, 4] and costs [2, 1] the ratios
    are 1/2 and 4, so unit 1 should come first; [rank_ratio] is computed
    from the costs alone and puts unit 0, the costlier one, first. *)
Theorem rank_ratio_ranks_by_cost_alone :
  rank_ratio [ofZ 2; 1] = [0; 1]%nat /\
  precedes (rank_ratio [ofZ 2; 1]) 0 1 /\
  ratio_at [1; ofZ 4] [ofZ 2; 1] 0 = Fin (frac 1 2) /\
  ratio_at [1; ofZ 4] [ofZ 2; 1] 1 = Fin (ofZ 4) /\
  frac 1 2 < ofZ 4.
Proof.
  split; [reflexivity|]. split; [|split; [|split]].
  - exists 0%nat, 1%nat. repeat split. lia.
  - qc_eval.
  - qc_eval.
  - reflexivity.
Qed.

(** What [rank_ratio] does: decreasing order of the estimated cost. *)
Lemma rank_ratio_sorted gamm_hat :
  StronglySorted (fun i j => Qcleb (nth j gamm_hat 0) (nth i gamm_hat 0) = true)
                 (rank_ratio gamm_hat).
Proof. apply rank_ignore_cost_sorted. Qed.

(** ** The sorted frame *)

Lemma Nat_leb_total x y : Nat.leb x y = true \/ Nat.leb y x = true.
Proof. rewrite !Nat.leb_le. lia. Qed.

Lemma Nat_leb_trans x y z :
  Nat.leb x y = true -> Nat.leb y z = true -> Nat.leb x z = true.
Proof. rewrite !Nat.leb_le. lia. Qed.

Lemma row_order_perm rank_col :
  Permutation (row_order rank_col) (seq 0 (length rank_col)).
Proof. apply sort_idx_perm. Qed.

(** The frame is sorted by the [argsort] output taken as a rank column,
    so the rows come out in the order of the inverse permutation: with
    estimates [1, 3, 2] the ranking is [1, 2, 0] and the rows are swept in
    the order [2, 0, 1]. *)
Example row_order_of_argsort :
  rank_ignore_cost [1; ofZ 3; ofZ 2] = [1; 2; 0]%nat /\
  row_order (rank_ignore_cost [1; ofZ 3; ofZ 2]) = [2; 0; 1]%nat.
Proof. split; reflexivity. Qed.

(* ================================================================== *)
(** * Further properties of the pipeline                               *)
(* ================================================================== *)

(** ** AIPW value of the policy that treats everyone *)


Section AipwFacts.

Variable np_sqrt : fnum -> fnum.


End AipwFacts.


(** ** Cell 20: subtracting the cost in place *)

Module Cell20Facts.
Import StoreFacts.

Lemma nth_error_update_eq {A} (l : list A) i v :
  (i < length l)%nat -> nth_error (Cell20.update l i v) i = Some v.
Proof.
  revert i. induction l as [|x l IH]; intros [|i] H; simpl in *; try lia; auto.
  apply IH. lia.
Qed.

Lemma nth_error_update_neq {A} (l : list A) i j v :
  i <> j -> nth_error (Cell20.update l i v) j = nth_error l j.
Proof.
  revert i j. induction l as [|x l IH]; intros [|i] [|j] H; simpl; try easy.
  apply IH. lia.
Qed.

(** The two score arrays of a call are new objects, and two of them. *)
Lemma double_robust_score_fresh fm y w x s yv wv rows fmv G1 G0 :
  Store.series_at s y = Some yv ->
  Store.series_at s w = Some wv ->
  Store.frame_at s x = Some rows ->
  Store.forest_at s fm = Some fmv ->
  double_robust_score fmv yv wv rows = Some (G1, G0) ->
  exists g1 g0 ext,
    Store.double_robust_score fm y w x s = Some ((g1, g0), s ++ ext) /\
    Store.series_at (s ++ ext) g1 = Some G1 /\
    Store.series_at (s ++ ext) g0 = Some G0 /\
    (length s <= g1)%nat /\ (length s <= g0)%nat /\ g1 <> g0.
Proof.
  intros Hy Hw Hx Hfm HG.
  unfold Store.forest_at in Hfm.
  apply obind_some in Hfm as (res0 & H0 & Hfm).
  apply obind_some in Hfm as (res1 & H1 & Hfm).
  injection Hfm as <-.
  remember (Store.double_robust_score fm y w x s) as res eqn:H.
  unfold Store.double_robust_score in H.
  unfold double_robust_score, e_hat_of, vadd, vsub, vmul, vdiv in HG.
  cbn [residuals_ effect fst snd] in HG.
  erewrite bind_call_effect in H by eassumption.
  repeat first
    [ erewrite bind_rsub1 in H by lookup
    | erewrite bind_binop in H by lookup;
      match type of H with
      | _ = match zip_with ?f ?a ?b with _ => _ end =>
          destruct (zip_with f a b) eqn:?; cbn [obind] in HG;
          [ | discriminate HG ]
      end ].
  unfold Store.ret in H. subst res. injection HG as <- <-.
  do 3 eexists. split; [|split; [|split; [|split; [|split]]]].
  - rewrite <- !app_assoc. reflexivity.
  - rewrite !app_assoc. lookup.
  - rewrite !app_assoc. lookup.
  - rewrite !length_app. lia.
  - rewrite !length_app. lia.
  - rewrite !length_app. simpl. lia.
Qed.

(** Cell 20.  After [double_robust_score] and [gamma_hat_1 -= cost] the
    treated-arm scores are the scores of the routine minus the cost;
    the control-arm scores are the scores of the routine, and every
    object that was in the store before, the arguments among them, is
    as it was. *)
Theorem scores_net_of_cost_in_place fm y w x cost s yv wv rows fmv :
  Store.series_at s y = Some yv ->
  Store.series_at s w = Some wv ->
  Store.frame_at s x = Some rows ->
  Store.forest_at s fm = Some fmv ->
  length wv = length yv ->
  length (fst (residuals_ fmv)) = length yv ->
  length (snd (residuals_ fmv)) = length yv ->
  length (effect fmv rows) = length yv ->
  exists g1 g0 s' G1 G0,
    Cell20.scores_net_of_cost fm y w x cost s = Some ((g1, g0), s') /\
    double_robust_score fmv yv wv rows = Some (G1, G0) /\
    Store.series_at s' g1 = Some (map (fun g => fsub g cost) G1) /\
    Store.series_at s' g0 = Some G0 /\
    Store.preserved s s'.
Proof.
  intros Hy Hw Hx Hf Lw L0 L1 Lt.
  destruct (double_robust_score_defined fmv yv wv rows Lw L0 L1 Lt)
    as (G1 & G0 & HG).
  destruct (double_robust_score_fresh fm y w x s yv wv rows fmv G1 G0
              Hy Hw Hx Hf HG)
    as (g1 & g0 & ext & Erun & A1 & A0 & F1 & F0 & Hne).
  exists g1, g0. eexists. exists G1, G0.
  unfold Cell20.scores_net_of_cost, Store.bind. rewrite Erun. cbn [fst].
  unfold Cell20.isub_scalar. unfold Store.series_at in A1, A0.
  destruct (nth_error (s ++ ext) g1) as [[v1|]|] eqn:N1; try discriminate.
  injection A1 as ->.
  split; [reflexivity|]. split; [exact HG|].
  unfold Store.series_at. split; [|split].
  - rewrite nth_error_update_eq; [reflexivity|].
    apply nth_error_Some. congruence.
  - rewrite nth_error_update_neq by exact Hne. exact A0.
  - intros r Hr. rewrite nth_error_update_neq by lia.
    now apply nth_error_app1.
Qed.

End Cell20Facts.

Lemma scores_net_of_cost_in_place_witness :
  exists g1 g0 s' G1 G0,
    Cell20.scores_net_of_cost ex_forest_obj 0%nat 1%nat 2%nat (Fin (frac 3 10))
      ex_store = Some ((g1, g0), s') /\
    double_robust_score ex_forest [Fin 1] [Fin 1] [[]] = Some (G1, G0) /\
    Store.series_at s' g1 = Some (map (fun g => fsub g (Fin (frac 3 10))) G1) /\
    Store.series_at s' g0 = Some G0 /\
    Store.preserved ex_store s'.
Proof.
  apply (Cell20Facts.scores_net_of_cost_in_place ex_forest_obj 0%nat 1%nat 2%nat
           (Fin (frac 3 10)) ex_store [Fin 1] [Fin 1] [[]] ex_forest);
    reflexivity.
Defined.

(** ** Rankings: order, positions, the sweep of the sorted frame *)

Lemma Qcleb_true_iff x y : Qcleb x y = true <-> x <= y.
Proof. unfold Qcleb. apply Qle_bool_iff. Qed.

Lemma ranking_is_decreasing_permutation_aux tau_hat :
  Permutation (rank_ignore_cost tau_hat) (seq 0 (length tau_hat)) /\
  StronglySorted (fun i j => nth j tau_hat 0 <= nth i tau_hat 0)
                 (rank_ignore_cost tau_hat).
Proof.
  split.
  - unfold rank_ignore_cost. rewrite argsort_perm. now rewrite vneg_length.
  - pose proof (rank_ignore_cost_sorted tau_hat) as H.
    induction H as [|i l Hl IH Hi]; constructor; [exact IH|].
    eapply Forall_impl; [|exact Hi]. intros j Hj. now apply Qcleb_true_iff.
Qed.


Lemma index_of_In i l : In i l -> exists p, index_of i l = Some p.
Proof.
  induction l as [|j l IH]; [easy|]. intros H. simpl.
  destruct (Nat.eqb i j) eqn:E; [now exists O|].
  apply Nat.eqb_neq in E. destruct H as [-> | H]; [congruence|].
  destruct (IH H) as [p ->]. now exists (S p).
Qed.

Lemma sorted_precedes (R : nat -> nat -> Prop) l i j :
  StronglySorted R l -> In i l -> In j l -> ~ R j i -> R i i ->
  precedes l i j.
Proof.
  intros HS. induction HS as [|x l Hl IH Hx]; intros Hi Hj Hn Hr; [easy|].
  rewrite Forall_forall in Hx.
  assert (Hij : i <> j) by (intros ->; contradiction).
  assert (Hjx : j <> x \/ i <> x) by (destruct (Nat.eq_dec i x); [left|right]; congruence).
  assert (Hj' : j = x -> False).
  { intros ->. destruct Hi as [-> | Hi]; [congruence|]. apply Hn. now apply Hx. }
  destruct Hj as [-> | Hj]; [now exfalso|].
  assert (Exj : Nat.eqb j x = false) by (apply Nat.eqb_neq; intros ->; now apply Hj').
  destruct (Nat.eq_dec i x) as [-> | Hix].
  - destruct (index_of_In j l Hj) as [q Eq].
    exists O, (S q). simpl. rewrite Nat.eqb_refl, Exj, Eq. repeat split. lia.
  - destruct Hi as [-> | Hi]; [congruence|].
    destruct (IH Hi Hj Hn Hr) as (p & q & Ep & Eq & Hpq).
    exists (S p), (S q). simpl.
    rewrite (proj2 (Nat.eqb_neq i x) Hix), Exj, Ep, Eq. repeat split. lia.
Qed.

(** In [rank_ignore_cost] a unit comes before every unit with a strictly
    smaller estimate; so the units the threshold policy [tau_hat > 0]
    treats come before all the others. *)
Theorem larger_estimate_ranks_first tau_hat i j :
  (i < length tau_hat)%nat -> (j < length tau_hat)%nat ->
  nth j tau_hat 0 < nth i tau_hat 0 ->
  precedes (rank_ignore_cost tau_hat) i j.
Proof.
  intros Hi Hj Hlt.
  destruct (ranking_is_decreasing_permutation_aux tau_hat) as [P S].
  apply sorted_precedes
    with (R := fun a b => nth b tau_hat 0 <= nth a tau_hat 0).
  - exact S.
  - apply (Permutation_in _ (Permutation_sym P)). apply in_seq. lia.
  - apply (Permutation_in _ (Permutation_sym P)). apply in_seq. lia.
  - now apply Qclt_not_le.
  - apply Qcle_refl.
Qed.

Lemma larger_estimate_ranks_first_witness :
  precedes (rank_ignore_cost [1; ofZ 3; ofZ 2]) 1 2.
Proof.
  apply (larger_estimate_ranks_first [1; ofZ 3; ofZ 2] 1 2).
  - simpl. lia.
  - simpl. lia.
  - reflexivity.
Defined.

Lemma seq_sorted a n : StronglySorted le (seq a n).
Proof.
  revert a. induction n as [|n IH]; intros a; simpl; constructor; [apply IH|].
  apply Forall_forall. intros k Hk. apply in_seq in Hk. lia.
Qed.

Lemma map_nth_seq_nat (l : list nat) :
  map (fun i => nth i l O) (seq 0 (length l)) = l.
Proof.
  induction l as [|x l IH]; [reflexivity|].
  cbn [length seq map nth]. f_equal.
  rewrite <- seq_shift, map_map. exact IH.
Qed.

Lemma StronglySorted_map {A B} (R : B -> B -> Prop) (f : A -> B) l :
  StronglySorted (fun a b => R (f a) (f b)) l -> StronglySorted R (map f l).
Proof.
  induction 1 as [|x l Hl IH Hx]; simpl; constructor; [exact IH|].
  apply Forall_map. exact Hx.
Qed.

(** The rank entries of the rows, read in the order the sorted frame has
    them, are 0, 1, 2, ... *)
Lemma rank_along_row_order rank_col :
  Permutation rank_col (seq 0 (length rank_col)) ->
  map (fun i => nth i rank_col O) (row_order rank_col) = seq 0 (length rank_col).
Proof.
  intros P. apply sorted_perm_unique with (R := le).
  - intros; lia.
  - apply StronglySorted_map.
    pose proof (sort_idx_sorted Nat.leb O rank_col Nat_leb_total Nat_leb_trans) as H.
    unfold row_order.
    induction H as [|i l Hl IH Hi]; constructor; [exact IH|].
    eapply Forall_impl; [|exact Hi]. intros j Hj.
    unfold key_le, key_leb in Hj. now apply Nat.leb_le.
  - apply seq_sorted.
  - transitivity (map (fun i => nth i rank_col O) (seq 0 (length rank_col))).
    + apply Permutation_map, row_order_perm.
    + now rewrite map_nth_seq_nat.
Qed.

(** Cells 34, 35 and 39: the [argsort] output is stored as a rank column
    and the frame sorted by it, so the row swept in place [k] is the row
    whose entry of the ranking array is [k]: the rows are swept in the
    order of the inverse permutation of the ranking. *)
Theorem sorted_frame_inverts_ranking tau_hat k :
  (k < length tau_hat)%nat ->
  nth (nth k (row_order (rank_ignore_cost tau_hat)) O) (rank_ignore_cost tau_hat) O
  = k.
Proof.
  intros Hk.
  assert (L : length (rank_ignore_cost tau_hat) = length tau_hat).
  { unfold rank_ignore_cost, argsort. now rewrite sort_idx_length, vneg_length. }
  assert (P : Permutation (rank_ignore_cost tau_hat)
                          (seq 0 (length (rank_ignore_cost tau_hat)))).
  { rewrite L. unfold rank_ignore_cost. rewrite argsort_perm.
    now rewrite vneg_length. }
  pose proof (rank_along_row_order _ P) as E.
  assert (Lr : length (row_order (rank_ignore_cost tau_hat)) = length tau_hat).
  { rewrite (Permutation_length (row_order_perm _)), length_seq. exact L. }
  apply (f_equal (fun l => nth k l O)) in E.
  rewrite seq_nth in E by lia. cbn [Nat.add] in E.
  etransitivity; [|exact E]. symmetry.
  rewrite nth_indep with (d' := nth O (rank_ignore_cost tau_hat) O)
    by (rewrite length_map; lia).
  apply (map_nth (fun i => nth i (rank_ignore_cost tau_hat) O)).
Qed.

Lemma sorted_frame_inverts_ranking_witness :
  nth (nth 0 (row_order (rank_ignore_cost [1; ofZ 3; ofZ 2])) O)
      (rank_ignore_cost [1; ofZ 3; ofZ 2]) O = 0%nat.
Proof.
  apply (sorted_frame_inverts_ranking [1; ofZ 3; ofZ 2] 0). simpl. lia.
Defined.

(** ** Cell 32: sizes *)

(** [n_test = int(nrow - nrow / 2)] is the size of the evaluation slice
    [iloc[train :]] only for an even number of rows: for an odd number the
    slice has one row more. *)
Theorem n_test_and_evaluation_slice nrow :
  length (iloc_from (train_rows nrow) (rows nrow)) = (n_test nrow + nrow mod 2)%nat.
Proof.
  unfold iloc_from, rows, train_rows, n_test.
  rewrite length_skipn, length_seq.
  pose proof (Nat.div_mod_eq nrow 2). lia.
Qed.

(** With fewer than two rows [n_test] is 0 and [1 / n_test] raises, for
    the benefit and for the cost column alike. *)
Theorem ipw_raises_below_two_rows nrow w y cost :
  (nrow < 2)%nat ->
  treatment_ipw nrow w y = None /\ cost_ipw nrow w cost = None.
Proof.
  intros H. unfold treatment_ipw, cost_ipw, n_test.
  rewrite Nat.div_small by exact H. split; reflexivity.
Qed.

Lemma ipw_raises_below_two_rows_witness :
  treatment_ipw 1 [1] [ofZ 3] = None /\ cost_ipw 1 [1] [ofZ 2] = None.
Proof.
  apply (ipw_raises_below_two_rows 1 [1] [ofZ 3] [ofZ 2]). lia.
Defined.

(** ** Cell 42: area between a curve and the diagonal *)

Lemma zip_with_Forall {A B C} (P : C -> Prop) (f : A -> B -> C) l m r :
  zip_with f l m = Some r ->
  (forall x y, In x l -> In y m -> P (f x y)) ->
  Forall P r.
Proof.
  revert m r. induction l as [|x l IH]; intros [|y m] r H HP; simpl in H;
    try discriminate.
  - injection H as <-. constructor.
  - destruct (zip_with f l m) as [r'|] eqn:E; [|discriminate].
    injection H as <-. constructor.
    + apply HP; now left.
    + eapply IH; [exact E|]. intros a b Ha Hb. apply HP; now right.
Qed.

Lemma In_removelast {A} (x : A) l : In x (removelast l) -> In x l.
Proof.
  induction l as [|a l IH]; [easy|]. simpl.
  destruct l as [|b l]; [easy|]. intros [-> | H]; [now left | right; auto].
Qed.

Lemma shift1_length s : length (shift1 s) = length s.
Proof.
  destruct s as [|a s]; [reflexivity|].
  unfold shift1. cbn [length]. f_equal.
  change (a :: s) with ([a] ++ s).
  destruct s as [|b s]; [reflexivity|].
  rewrite removelast_app by discriminate. cbn [length app].
  f_equal. clear a. revert b. induction s as [|c s IH]; intros b; [reflexivity|].
  cbn [removelast length] in *. now rewrite IH.
Qed.

Lemma sum_skipna_zero p :
  Forall (fun v => v = NaN \/ v = Fin 0) p -> sum_skipna p = Fin 0.
Proof.
  unfold sum_skipna. induction 1 as [|v p [-> | ->] _ IH]; cbn [filter is_nan negb fold_right].
  - reflexivity.
  - exact IH.
  - rewrite IH. cbn [fadd]. f_equal; try ring.
Qed.

(** A policy whose value curve coincides with its cost curve, the
    diagonal of the plot, has area 0. *)
Theorem area_of_diagonal_is_zero (c : list Qc) :
  area (map Fin c) (map Fin c) = Some (Fin 0).
Proof.
  unfold area.
  destruct (zip_with_defined fsub (map Fin c) (map Fin c)) as [d Ed]; [reflexivity|].
  destruct (zip_with_defined fsub (map Fin c) (shift1 (map Fin c))) as [s Es];
    [now rewrite shift1_length|].
  destruct (zip_with_length _ _ _ _ Ed) as [_ Ld].
  destruct (zip_with_length _ _ _ _ Es) as [_ Ls].
  destruct (zip_with_defined fmul d s) as [p Ep]; [congruence|].
  unfold vsub, vmul. rewrite Ed. cbn [obind]. rewrite Es. cbn [obind].
  rewrite Ep. cbn [obind]. f_equal.
  apply sum_skipna_zero.
  assert (Hd : forall v, In v d -> exists a b, v = fsub (Fin a) (Fin b) /\ a = b).
  { clear - Ed. intros v Hv.
    assert (F : Forall (fun v => exists a b, v = fsub (Fin a) (Fin b) /\ a = b) d).
    { clear Hv. revert d Ed. induction c as [|a c IH]; intros d Ed; simpl in Ed.
      - injection Ed as <-. constructor.
      - destruct (zip_with fsub (map Fin c) (map Fin c)) as [r|] eqn:E; [|discriminate].
        injection Ed as <-. constructor; [now exists a, a | now apply IH]. }
    rewrite Forall_forall in F. now apply F. }
  assert (Hs : forall v, In v s -> v = NaN \/ exists q, v = Fin q).
  { assert (F : Forall (fun v => v = NaN \/ exists q, v = Fin q) s).
    { eapply zip_with_Forall; [exact Es|]. intros x y Hx Hy.
      apply in_map_iff in Hx as (a & <- & _).
      destruct c as [|c0 c]; [easy|].
      cbn [shift1 map] in Hy. destruct Hy as [<- | Hy]; [now left|].
      apply In_removelast in Hy.
      change (Fin c0 :: map Fin c) with (map Fin (c0 :: c)) in Hy.
      apply in_map_iff in Hy as (b & <- & _). right. eexists. reflexivity. }
    rewrite Forall_forall in F. exact F. }
  eapply zip_with_Forall; [exact Ep|]. intros x y Hx Hy.
  destruct (Hd x Hx) as (a & b & -> & ->).
  destruct (Hs y Hy) as [-> | [q ->]]; [now left | right].
  cbn [fsub fopp fadd fmul]. f_equal. ring.
Qed.

(* ================================================================== *)
(** * Sample splitting                                                 *)
(* ================================================================== *)

Module FlowFacts.

Import Flow.













End FlowFacts.

(* ================================================================== *)
(** * Properties in binary64 arithmetic                                *)
(* ================================================================== *)

Module B64Facts.

Import PrimFloat FloatOps FloatAxioms.
Import B64.
Local Open Scope float_scope.

(** ** Special values *)

Lemma sub_zero_r x : x - 0 = x.
Proof.
  apply Prim2SF_inj. rewrite sub_spec.
  change (Prim2SF 0) with (SpecFloat.S754_zero false).
  unfold SF64sub. destruct (Prim2SF x) as [[|]|[|]| |[|] m e]; reflexivity.
Qed.

Lemma map_sub_zero l : map (fun y => y - 0) l = l.
Proof.
  induction l as [|x l IH]; [reflexivity|].
  cbn [map]. now rewrite sub_zero_r, IH.
Qed.

(** ** [extr_val_sd]: where the cost enters *)

Lemma strata_defined (w : list float) (a : list bool) :
  length w = length a ->
  exists c_1 c_0,
    stratum_1 w a = Some c_1 /\ stratum_0 w a = Some c_0 /\
    length c_1 = length a /\ length c_0 = length a.
Proof.
  intros H.
  destruct (zip_with_defined (fun ai wi => ai && (wi =? 1)) a w) as [c_1 H1];
    [now symmetry|].
  destruct (zip_with_defined (fun ai wi => negb ai && (wi =? 0)) a w) as [c_0 H0];
    [now symmetry|].
  exists c_1, c_0. repeat split; try assumption.
  - now apply zip_with_length in H1.
  - now apply zip_with_length in H0.
Qed.

Lemma net_outcomes_select (y w : list float) (a : list bool) cost c_1 c_0 net :
  stratum_1 w a = Some c_1 ->
  stratum_0 w a = Some c_0 ->
  zip_with (fun v (b : bool) => if b then v - cost else v) y c_1 = Some net ->
  select net c_1 = map (fun v => v - cost) (select y c_1) /\
  select net c_0 = select y c_0.
Proof.
  unfold stratum_1, stratum_0.
  revert w y c_1 c_0 net.
  induction a as [|ai a IH]; intros [|wi w] y c_1 c_0 net H1 H0 Hn;
    simpl in H1, H0; try discriminate.
  - injection H1 as <-. injection H0 as <-.
    destruct y; simpl in Hn; [|discriminate]. injection Hn as <-. auto.
  - destruct (zip_with _ a w) as [r1|] eqn:E1 in H1; [|discriminate].
    destruct (zip_with _ a w) as [r0|] eqn:E0 in H0; [|discriminate].
    injection H1 as <-. injection H0 as <-.
    destruct y as [|v y]; simpl in Hn; [discriminate|].
    destruct (zip_with _ y r1) as [n'|] eqn:En; [|discriminate].
    injection Hn as <-.
    destruct (IH _ _ _ _ _ E1 E0 En) as [IH1 IH0].
    destruct ai; cbn [andb negb select].
    + destruct (wi =? 1); cbn [select map]; now rewrite ?IH1, ?IH0.
    + destruct (wi =? 0); cbn [select map]; now rewrite ?IH1, ?IH0.
Qed.

Section ExtrValSdFacts.

Variable np_mean : list float -> float.
Variable np_var : list float -> float.
Variable np_sqrt : float -> float.

(** C10, as the code has it.  On columns of one length [extr_val_sd]
    returns, and the standard error it returns is the one it returns with
    cost 0, bit for bit.  The cost enters the value estimate through the
    treated-arm mean alone, where it is subtracted from each outcome
    before the mean is taken: the value estimate with cost [c] is the
    cost-0 value estimate of the evaluation set in which [c] has been
    taken off the outcome of every unit of [c_1]. *)
Theorem extr_val_sd_cost_enters_treated_mean y w a cost :
  length y = length a ->
  length w = length a ->
  exists val_est var_sqr val_0 net,
    extr_val_sd np_mean np_var np_sqrt y w a cost = Some (val_est, var_sqr) /\
    extr_val_sd np_mean np_var np_sqrt y w a 0 = Some (val_0, var_sqr) /\
    net_outcomes y w a cost = Some net /\
    option_map fst (extr_val_sd np_mean np_var np_sqrt net w a 0)
    = Some val_est.
Proof.
  intros Hy Hw.
  destruct (strata_defined w a Hw) as (c_1 & c_0 & H1 & H0 & L1 & L0).
  destruct (zip_with_defined (fun v (b : bool) => if b then v - cost else v) y c_1)
    as [net Hn]; [congruence|].
  destruct (net_outcomes_select y w a cost c_1 c_0 net H1 H0 Hn) as [S1 S0].
  assert (Ln : length net = length a).
  { apply zip_with_length in Hn. destruct Hn as [_ ->]. exact Hy. }
  eexists _, _, _, net.
  unfold extr_val_sd, net_outcomes. rewrite H1, H0. cbn [obind].
  rewrite Hn, Ln, Hy, Nat.eqb_refl.
  repeat split.
  cbn [option_map fst]. f_equal.
  unfold mean_1, mean_0. now rewrite S1, S0, !map_sub_zero.
Qed.

End ExtrValSdFacts.

(** C10, as stated, fails in binary64: with outcomes [1, 0, 1], treatments
    [1, 1, 0], the policy [True, True, False] and cost [.3] the code
    returns the value estimate 0.46666666666666662, and the cost-0 value
    estimate minus [.3] times the fraction treated is
    0.46666666666666667. *)
Lemma extr_val_sd_cost_rounds :
  ~ (forall (y w : list float) (a : list bool) (cost val_est var_sqr val_0 var_0 : float)
            (c_1 c_0 : list bool),
        stratum_1 w a = Some c_1 -> count_true c_1 <> O ->
        stratum_0 w a = Some c_0 -> count_true c_0 <> O ->
        extr_val_sd mean_seq var_seq sqrt y w a cost = Some (val_est, var_sqr) ->
        extr_val_sd mean_seq var_seq sqrt y w a 0 = Some (val_0, var_0) ->
        var_sqr = var_0 /\ val_est = val_0 - cost * np_mean_bool a).
Proof.
  intros H.
  destruct (H [1; 0; 1] [1; 1; 0] [true; true; false] 0.3
              0.46666666666666662 0.23570226039551584
              0.66666666666666663 0.23570226039551584
              [true; true; false] [false; false; true]) as [_ E].
  - reflexivity.
  - vm_compute. discriminate.
  - reflexivity.
  - vm_compute. discriminate.
  - vm_compute. reflexivity.
  - vm_compute. reflexivity.
  - apply (f_equal Prim2SF) in E. vm_compute in E. discriminate E.
Qed.

(** The same input with the right-hand side of the claim taken over the
    rationals: the value the code returns is not the rational number
    [val_0 - cost * 2/3] either, [val_0] and [cost] being the binary64
    values of the cost-0 estimate and of [.3]. *)
Example extr_val_sd_cost_rounds_over_rationals :
  exists val_est val_0 cost : Q,
    option_map (fun p => to_Q (fst p))
      (extr_val_sd mean_seq var_seq sqrt [1; 0; 1] [1; 1; 0] [true; true; false] 0.3)
    = Some (Some val_est) /\
    option_map (fun p => to_Q (fst p))
      (extr_val_sd mean_seq var_seq sqrt [1; 0; 1] [1; 1; 0] [true; true; false] 0)
    = Some (Some val_0) /\
    to_Q 0.3 = Some cost /\
    Qeq_bool val_est (val_0 - cost * (2 # 3)) = false.
Proof.
  eexists _, _, _. repeat split; vm_compute; reflexivity.
Qed.

Lemma extr_val_sd_cost_enters_treated_mean_witness :
  exists val_est var_sqr val_0 net,
    extr_val_sd mean_seq var_seq sqrt [1; 0; 1] [1; 1; 0] [true; true; false] 0.3
    = Some (val_est, var_sqr) /\
    extr_val_sd mean_seq var_seq sqrt [1; 0; 1] [1; 1; 0] [true; true; false] 0
    = Some (val_0, var_sqr) /\
    net_outcomes [1; 0; 1] [1; 1; 0] [true; true; false] 0.3 = Some net /\
    option_map fst
      (extr_val_sd mean_seq var_seq sqrt net [1; 1; 0] [true; true; false] 0)
    = Some val_est.
Proof.
  apply (extr_val_sd_cost_enters_treated_mean mean_seq var_seq sqrt
           [1; 0; 1] [1; 1; 0] [true; true; false] 0.3); reflexivity.
Defined.

(** ** [double_robust_score]: the divisions *)

Lemma SFcompare_refl s m e :
  SpecFloat.SFcompare (SpecFloat.S754_finite s m e) (SpecFloat.S754_finite s m e)
  = Some Eq.
Proof.
  cbn [SpecFloat.SFcompare]. rewrite Z.compare_refl.
  assert (E : Pos.compare_cont Eq m m = Eq) by apply Pos.compare_refl.
  rewrite E. now destruct s.
Qed.

Lemma is_finite_spec x : is_finite x = negb (special (Prim2SF x)).
Proof.
  unfold is_finite, is_nan, is_infinity.
  rewrite !eqb_spec, abs_spec.
  change (Prim2SF infinity) with (SpecFloat.S754_infinity false).
  unfold SpecFloat.SFeqb.
  destruct (Prim2SF x) as [[|]|[|]| |s m e]; try reflexivity.
  rewrite SFcompare_refl. reflexivity.
Qed.

Lemma eqb_zero_spec x : (x =? 0) = is_zero_sf (Prim2SF x).
Proof.
  rewrite eqb_spec. change (Prim2SF 0) with (SpecFloat.S754_zero false).
  unfold SpecFloat.SFeqb.
  destruct (Prim2SF x) as [[|]|[|]| |[|] m e]; reflexivity.
Qed.

(** A quotient by zero is infinite or [nan], whatever the numerator. *)
Lemma div_zero_special x e : (e =? 0) = true -> is_finite (x / e) = false.
Proof.
  rewrite eqb_zero_spec, is_finite_spec, div_spec. unfold SF64div.
  destruct (Prim2SF e) as [se| | |]; try discriminate. intros _.
  destruct (Prim2SF x) as [[|]|[|]| |[|] m k]; reflexivity.
Qed.

(** An infinite or [nan] factor or term gives an infinite or [nan]
    result. *)
Lemma mul_special_l x z : is_finite x = false -> is_finite (x * z) = false.
Proof.
  rewrite !is_finite_spec, mul_spec. unfold SF64mul.
  destruct (Prim2SF x) as [sx|sx| |sx mx ex]; try discriminate; intros _;
    destruct (Prim2SF z) as [[|]|[|]| |[|] m k]; reflexivity.
Qed.

Lemma add_special_r x z : is_finite z = false -> is_finite (x + z) = false.
Proof.
  rewrite !is_finite_spec, add_spec. unfold SF64add.
  destruct (Prim2SF z) as [sz|[|]| |sz mz ez]; try discriminate; intros _;
    destruct (Prim2SF x) as [[|]|[|]| |[|] m k]; reflexivity.
Qed.

Lemma score_at_zero_divisor mu x e z :
  (e =? 0) = true -> is_finite (mu + x / e * z) = false.
Proof.
  intros H. apply add_special_r, mul_special_l, div_zero_special, H.
Qed.

Lemma length_one_minus (v : list float) : length (one_minus v) = length v.
Proof. apply length_map. Qed.

Ltac zip_step r E L :=
  match goal with
  | |- context [zip_with ?f ?a ?b] =>
      destruct (zip_with_defined f a b) as [r E];
      [ rewrite ?length_one_minus; congruence
      | rewrite E; cbn [obind];
        destruct (zip_with_length f a b r E) as [_ L];
        rewrite ?length_one_minus in L ]
  end.

Lemma nth_one_minus i (v : list float) :
  (i < length v)%nat -> nth i (one_minus v) 0 = 1 - nth i v 0.
Proof.
  intros H. unfold one_minus.
  rewrite (nth_indep _ 0 (1 - 0)) by now rewrite length_map.
  apply (map_nth (sub 1)).
Qed.

(** C4, as the code has it.  [double_robust_score] neither asserts nor
    clips: the propensity is [e_hat = w - residuals[1]] as computed, and
    the scores divide by it and by [1 - e_hat].  On columns of one length
    the call returns, whatever the propensities; where [e_hat] is 0 the
    treated-arm score is infinite or [nan], and where [1 - e_hat] is 0 the
    control-arm score is. *)
Theorem double_robust_score_divides_as_computed fm y w x :
  length w = length y ->
  length (fst (residuals_ fm)) = length y ->
  length (snd (residuals_ fm)) = length y ->
  length (effect fm x) = length y ->
  exists e_hat gamma_hat_1 gamma_hat_0,
    e_hat_of fm w = Some e_hat /\
    double_robust_score fm y w x = Some (gamma_hat_1, gamma_hat_0) /\
    length gamma_hat_1 = length y /\ length gamma_hat_0 = length y /\
    forall i, (i < length y)%nat ->
      nth i e_hat 0 = nth i w 0 - nth i (snd (residuals_ fm)) 0 /\
      ((nth i e_hat 0 =? 0) = true ->
       is_finite (nth i gamma_hat_1 0) = false) /\
      ((1 - nth i e_hat 0 =? 0) = true ->
       is_finite (nth i gamma_hat_0 0) = false).
Proof.
  intros Lw L0 L1 Lt.
  unfold double_robust_score, e_hat_of, vadd, vsub, vmul, vdiv.
  zip_step e_hat Ee Le.
  zip_step y_hat Ey Ly.
  zip_step t1 E1 Lt1.
  zip_step mu_hat_1 Em1 Lm1.
  zip_step t2 E2 Lt2.
  zip_step mu_hat_0 Em0 Lm0.
  zip_step t3 E3 Lt3.
  zip_step t4 E4 Lt4.
  zip_step t5 E5 Lt5.
  zip_step gamma_hat_1 Eg1 Lg1.
  zip_step t6 E6 Lt6.
  zip_step t7 E7 Lt7.
  zip_step t8 E8 Lt8.
  zip_step gamma_hat_0 Eg0 Lg0.
  exists e_hat, gamma_hat_1, gamma_hat_0.
  repeat split; try congruence.
  - rewrite (zip_with_nth _ _ _ _ 0 0 0 i Ee) by congruence. reflexivity.
  - intros Hz.
    rewrite (zip_with_nth _ _ _ _ 0 0 0 i Eg1) by congruence.
    rewrite (zip_with_nth _ _ _ _ 0 0 0 i E5) by congruence.
    rewrite (zip_with_nth _ _ _ _ 0 0 0 i E3) by congruence.
    now apply score_at_zero_divisor.
  - intros Hz.
    rewrite (zip_with_nth _ _ _ _ 0 0 0 i Eg0) by congruence.
    rewrite (zip_with_nth _ _ _ _ 0 0 0 i E8) by congruence.
    rewrite (zip_with_nth _ _ _ _ 0 0 0 i E6) by congruence.
    rewrite (nth_one_minus i e_hat) by congruence.
    now apply score_at_zero_divisor.
Qed.

Lemma ltb_asym x : (0 <? x) = true -> (x <? 0) = true -> False.
Proof.
  rewrite !ltb_spec. change (Prim2SF 0) with (SpecFloat.S754_zero false).
  unfold SpecFloat.SFltb.
  destruct (Prim2SF x) as [[|]|[|]| |[|] m e]; cbn; discriminate.
Qed.

(** C4, as stated, fails: no bound [eps] holds for the propensities the
    routine divides by.  A treated unit whose treatment residual is 1 has
    [e_hat = 0], and the call returns normally. *)
Lemma double_robust_score_no_propensity_guard :
  ~ (exists eps : float, (0 <? eps) = true /\
       forall fm y w x r e_hat,
         double_robust_score fm y w x = Some r ->
         e_hat_of fm w = Some e_hat ->
         Forall (fun e => (eps <? e) = true /\ (e <? 1 - eps) = true) e_hat).
Proof.
  intros (eps & Hpos & H).
  specialize (H ex_zero_propensity [1] [1] [[]] _ [0] eq_refl eq_refl).
  apply Forall_inv in H. destruct H as [H _].
  exact (ltb_asym eps Hpos H).
Qed.

(** On that input the division by zero is carried out and the treated-arm
    score is infinite. *)
Example double_robust_score_infinite :
  double_robust_score ex_zero_propensity [1] [1] [[]]
  = Some ([neg_infinity], [1]).
Proof. vm_compute. reflexivity. Qed.

(** A small residual is enough: with [w = 1] and the treatment residual
    [1e-20] the difference [w - residuals[1]] rounds to 1, the control-arm
    score divides 0 by 0 and is [nan]. *)
Example double_robust_score_propensity_rounds_to_one :
  e_hat_of ex_small_residual [1] = Some [1] /\
  double_robust_score ex_small_residual [1] [1] [[]] = Some ([1], [nan]).
Proof. split; vm_compute; reflexivity. Qed.

Lemma double_robust_score_divides_as_computed_witness :
  exists e_hat gamma_hat_1 gamma_hat_0,
    e_hat_of ex_zero_propensity [1] = Some e_hat /\
    double_robust_score ex_zero_propensity [1] [1] [[]]
    = Some (gamma_hat_1, gamma_hat_0) /\
    length gamma_hat_1 = 1%nat /\ length gamma_hat_0 = 1%nat /\
    forall i, (i < 1)%nat ->
      nth i e_hat 0 = nth i [1] 0 - nth i [1] 0 /\
      ((nth i e_hat 0 =? 0) = true ->
       is_finite (nth i gamma_hat_1 0) = false) /\
      ((1 - nth i e_hat 0 =? 0) = true ->
       is_finite (nth i gamma_hat_0 0) = false).
Proof.
  apply (double_robust_score_divides_as_computed ex_zero_propensity [1] [1] [[]]);
    reflexivity.
Defined.

(** ** [double_robust_score], unit by unit *)

(** The scores of unit [i] in terms of the inputs of unit [i]. *)
Lemma double_robust_score_nth fm y w x :
  length w = length y ->
  length (fst (residuals_ fm)) = length y ->
  length (snd (residuals_ fm)) = length y ->
  length (effect fm x) = length y ->
  exists gamma_hat_1 gamma_hat_0,
    double_robust_score fm y w x = Some (gamma_hat_1, gamma_hat_0) /\
    forall i, (i < length y)%nat ->
      let e_hat := nth i w 0 - nth i (snd (residuals_ fm)) 0 in
      let y_hat := nth i y 0 - nth i (fst (residuals_ fm)) 0 in
      let tau_hat := nth i (effect fm x) 0 in
      let mu_hat_1 := y_hat + (1 - e_hat) * tau_hat in
      let mu_hat_0 := y_hat - e_hat * tau_hat in
      nth i gamma_hat_1 0
      = mu_hat_1 + nth i w 0 / e_hat * (nth i y 0 - mu_hat_1) /\
      nth i gamma_hat_0 0
      = mu_hat_0 + (1 - nth i w 0) / (1 - e_hat) * (nth i y 0 - mu_hat_0).
Proof.
  intros Lw L0 L1 Lt.
  unfold double_robust_score, e_hat_of, vadd, vsub, vmul, vdiv.
  zip_step e_hat Ee Le.
  zip_step y_hat Ey Ly.
  zip_step t1 E1 Lt1.
  zip_step mu_hat_1 Em1 Lm1.
  zip_step t2 E2 Lt2.
  zip_step mu_hat_0 Em0 Lm0.
  zip_step t3 E3 Lt3.
  zip_step t4 E4 Lt4.
  zip_step t5 E5 Lt5.
  zip_step gamma_hat_1 Eg1 Lg1.
  zip_step t6 E6 Lt6.
  zip_step t7 E7 Lt7.
  zip_step t8 E8 Lt8.
  zip_step gamma_hat_0 Eg0 Lg0.
  exists gamma_hat_1, gamma_hat_0. split; [reflexivity|].
  intros i Hi. cbv zeta. split.
  - rewrite (zip_with_nth _ _ _ _ 0 0 0 i Eg1) by congruence.
    rewrite (zip_with_nth _ _ _ _ 0 0 0 i E5) by congruence.
    rewrite (zip_with_nth _ _ _ _ 0 0 0 i E4) by congruence.
    rewrite (zip_with_nth _ _ _ _ 0 0 0 i E3) by congruence.
    rewrite (zip_with_nth _ _ _ _ 0 0 0 i Em1) by congruence.
    rewrite (zip_with_nth _ _ _ _ 0 0 0 i E1) by congruence.
    rewrite (nth_one_minus i e_hat) by congruence.
    rewrite (zip_with_nth _ _ _ _ 0 0 0 i Ey) by congruence.
    rewrite (zip_with_nth _ _ _ _ 0 0 0 i Ee) by congruence.
    reflexivity.
  - rewrite (zip_with_nth _ _ _ _ 0 0 0 i Eg0) by congruence.
    rewrite (zip_with_nth _ _ _ _ 0 0 0 i E8) by congruence.
    rewrite (zip_with_nth _ _ _ _ 0 0 0 i E7) by congruence.
    rewrite (zip_with_nth _ _ _ _ 0 0 0 i E6) by congruence.
    rewrite (nth_one_minus i w) by congruence.
    rewrite (nth_one_minus i e_hat) by congruence.
    rewrite (zip_with_nth _ _ _ _ 0 0 0 i Em0) by congruence.
    rewrite (zip_with_nth _ _ _ _ 0 0 0 i E2) by congruence.
    rewrite (zip_with_nth _ _ _ _ 0 0 0 i Ey) by congruence.
    rewrite (zip_with_nth _ _ _ _ 0 0 0 i Ee) by congruence.
    reflexivity.
Qed.

(** A zero numerator over a finite divisor other than zero, times a finite
    factor, adds nothing. *)
Lemma zero_term mu d z :
  is_finite d = true -> (d =? 0) = false -> is_finite z = true ->
  is_nan mu = false ->
  (mu + 0 / d * z =? mu) = true.
Proof.
  unfold is_nan. rewrite !is_finite_spec, eqb_zero_spec, !eqb_spec.
  rewrite add_spec, mul_spec, div_spec.
  change (Prim2SF 0) with (SpecFloat.S754_zero false).
  unfold SF64add, SF64mul, SF64div, SpecFloat.SFeqb.
  destruct (Prim2SF d) as [sd|sd| |sd md ed]; try discriminate; intros _ _;
    destruct (Prim2SF z) as [sz|sz| |sz mz ez]; try discriminate; intros _;
    destruct (Prim2SF mu) as [[|]|[|]| |sm mm em]; try discriminate; intros _;
    destruct sd; destruct sz;
    cbn [SpecFloat.SFadd SpecFloat.SFmul SpecFloat.SFdiv xorb];
    try reflexivity; rewrite SFcompare_refl; reflexivity.
Qed.

Lemma sub_self_one : 1 - 1 = 0.
Proof. reflexivity. Qed.

Lemma finite_not_nan x : is_finite x = true -> is_nan x = false.
Proof.
  unfold is_finite. destruct (is_nan x); [discriminate | reflexivity].
Qed.

Lemma sub_finite_r y mu : is_finite (y - mu) = true -> is_nan mu = false.
Proof.
  unfold is_nan. rewrite is_finite_spec, sub_spec, eqb_spec.
  unfold SF64sub, SpecFloat.SFeqb.
  destruct (Prim2SF mu) as [[|]|[|]| |sm mm em]; try reflexivity;
    try (rewrite SFcompare_refl; reflexivity);
    destruct (Prim2SF y) as [[|]|[|]| |sy my ey]; discriminate.
Qed.

(** The score of the arm a unit was not observed in is the prediction of
    the model for that arm: for a treated unit the control-arm score is
    [mu_hat_0], for an untreated unit the treated-arm score is [mu_hat_1],
    provided the divisor of the correction term is a finite number other
    than zero and the residual it multiplies is finite.  The equality is
    that of numbers ([==]): the two may differ in the sign of a zero. *)
Theorem double_robust_score_unobserved_arm fm y w x :
  length w = length y ->
  length (fst (residuals_ fm)) = length y ->
  length (snd (residuals_ fm)) = length y ->
  length (effect fm x) = length y ->
  exists gamma_hat_1 gamma_hat_0,
    double_robust_score fm y w x = Some (gamma_hat_1, gamma_hat_0) /\
    forall i, (i < length y)%nat ->
      let e_hat := nth i w 0 - nth i (snd (residuals_ fm)) 0 in
      let y_hat := nth i y 0 - nth i (fst (residuals_ fm)) 0 in
      let tau_hat := nth i (effect fm x) 0 in
      let mu_hat_1 := y_hat + (1 - e_hat) * tau_hat in
      let mu_hat_0 := y_hat - e_hat * tau_hat in
      (nth i w 0 = 1 ->
       is_finite (1 - e_hat) = true -> (1 - e_hat =? 0) = false ->
       is_finite (nth i y 0 - mu_hat_0) = true ->
       (nth i gamma_hat_0 0 =? mu_hat_0) = true) /\
      (nth i w 0 = 0 ->
       is_finite e_hat = true -> (e_hat =? 0) = false ->
       is_finite (nth i y 0 - mu_hat_1) = true ->
       (nth i gamma_hat_1 0 =? mu_hat_1) = true).
Proof.
  intros Lw L0 L1 Lt.
  destruct (double_robust_score_nth fm y w x Lw L0 L1 Lt) as (g1 & g0 & E & H).
  exists g1, g0. split; [exact E|].
  intros i Hi. destruct (H i Hi) as [H1 H0]. cbv zeta in *.
  rewrite H1, H0. clear H1 H0.
  set (e_hat := nth i w 0 - nth i (snd (residuals_ fm)) 0).
  split; intros Hw Hd Hz Hr; rewrite Hw, ?sub_self_one;
    (apply zero_term; [exact Hd | exact Hz | exact Hr |]);
    now apply sub_finite_r in Hr.
Qed.

Lemma double_robust_score_unobserved_arm_witness :
  exists gamma_hat_1 gamma_hat_0,
    double_robust_score ex_two_units [1; 2] [1; 0] [[]; []]
    = Some (gamma_hat_1, gamma_hat_0) /\
    forall i, (i < 2)%nat ->
      let e_hat := nth i [1; 0] 0 - nth i (snd (residuals_ ex_two_units)) 0 in
      let y_hat := nth i [1; 2] 0 - nth i (fst (residuals_ ex_two_units)) 0 in
      let tau_hat := nth i (effect ex_two_units [[]; []]) 0 in
      let mu_hat_1 := y_hat + (1 - e_hat) * tau_hat in
      let mu_hat_0 := y_hat - e_hat * tau_hat in
      (nth i [1; 0] 0 = 1 ->
       is_finite (1 - e_hat) = true -> (1 - e_hat =? 0) = false ->
       is_finite (nth i [1; 2] 0 - mu_hat_0) = true ->
       (nth i gamma_hat_0 0 =? mu_hat_0) = true) /\
      (nth i [1; 0] 0 = 0 ->
       is_finite e_hat = true -> (e_hat =? 0) = false ->
       is_finite (nth i [1; 2] 0 - mu_hat_1) = true ->
       (nth i gamma_hat_1 0 =? mu_hat_1) = true).
Proof.
  apply (double_robust_score_unobserved_arm ex_two_units [1; 2] [1; 0] [[]; []]);
    reflexivity.
Defined.

(** ** Cell 7: the scores with the known propensity *)

Lemma nth_e_hat_known i n : (i < n)%nat -> nth i (e_hat_known n) 0 = 0.5.
Proof.
  intros H. unfold e_hat_known.
  rewrite (nth_indep _ 0 0.5) by now rewrite repeat_length.
  apply nth_repeat.
Qed.

(** With the known propensity [.5] and a 0/1 treatment the divisions of
    cell 7 are exact, also in binary64: unit by unit the scores are
    [mu_hat_1 + 2 W (Y - mu_hat_1)] and
    [mu_hat_0 + 2 (1 - W) (Y - mu_hat_0)], computed in this order. *)
Theorem aipw_scores_known_propensity mu_hat_1 mu_hat_0 W Y :
  length mu_hat_1 = length Y ->
  length mu_hat_0 = length Y ->
  length W = length Y ->
  Forall (fun w => w = 0 \/ w = 1) W ->
  exists gamma_hat_1 gamma_hat_0,
    aipw_scores mu_hat_1 mu_hat_0 W Y (e_hat_known (length Y))
    = Some (gamma_hat_1, gamma_hat_0) /\
    forall i, (i < length Y)%nat ->
      nth i gamma_hat_1 0
      = nth i mu_hat_1 0 + 2 * nth i W 0 * (nth i Y 0 - nth i mu_hat_1 0) /\
      nth i gamma_hat_0 0
      = nth i mu_hat_0 0
        + 2 * (1 - nth i W 0) * (nth i Y 0 - nth i mu_hat_0 0).
Proof.
  intros L1 L0 Lw Hw.
  assert (Le : length (e_hat_known (length Y)) = length Y)
    by apply repeat_length.
  unfold aipw_scores, vadd, vsub, vmul, vdiv.
  zip_step t1 E1 Lt1.
  zip_step t2 E2 Lt2.
  zip_step t3 E3 Lt3.
  zip_step gamma_hat_1 Eg1 Lg1.
  zip_step t4 E4 Lt4.
  zip_step t5 E5 Lt5.
  zip_step t6 E6 Lt6.
  zip_step gamma_hat_0 Eg0 Lg0.
  exists gamma_hat_1, gamma_hat_0. split; [reflexivity|].
  intros i Hi.
  assert (Hwi : nth i W 0 = 0 \/ nth i W 0 = 1).
  { rewrite Forall_forall in Hw. apply Hw, nth_In. congruence. }
  split.
  - rewrite (zip_with_nth _ _ _ _ 0 0 0 i Eg1) by congruence.
    rewrite (zip_with_nth _ _ _ _ 0 0 0 i E3) by congruence.
    rewrite (zip_with_nth _ _ _ _ 0 0 0 i E2) by congruence.
    rewrite (zip_with_nth _ _ _ _ 0 0 0 i E1) by congruence.
    rewrite nth_e_hat_known by exact Hi.
    destruct Hwi as [-> | ->]; reflexivity.
  - rewrite (zip_with_nth _ _ _ _ 0 0 0 i Eg0) by congruence.
    rewrite (zip_with_nth _ _ _ _ 0 0 0 i E6) by congruence.
    rewrite (zip_with_nth _ _ _ _ 0 0 0 i E5) by congruence.
    rewrite (zip_with_nth _ _ _ _ 0 0 0 i E4) by congruence.
    rewrite (nth_one_minus i W) by congruence.
    rewrite (nth_one_minus i (e_hat_known (length Y))) by congruence.
    rewrite nth_e_hat_known by exact Hi.
    destruct Hwi as [-> | ->]; reflexivity.
Qed.

Lemma aipw_scores_known_propensity_witness :
  exists gamma_hat_1 gamma_hat_0,
    aipw_scores [0.3; 0.1] [0.2; 0.4] [1; 0] [0.7; 0.9] (e_hat_known 2)
    = Some (gamma_hat_1, gamma_hat_0) /\
    forall i, (i < 2)%nat ->
      nth i gamma_hat_1 0
      = nth i [0.3; 0.1] 0 + 2 * nth i [1; 0] 0 * (nth i [0.7; 0.9] 0 - nth i [0.3; 0.1] 0) /\
      nth i gamma_hat_0 0
      = nth i [0.2; 0.4] 0
        + 2 * (1 - nth i [1; 0] 0) * (nth i [0.7; 0.9] 0 - nth i [0.2; 0.4] 0).
Proof.
  apply (aipw_scores_known_propensity [0.3; 0.1] [0.2; 0.4] [1; 0] [0.7; 0.9]);
    try reflexivity.
  constructor; [right; reflexivity|].
  constructor; [left; reflexivity | constructor].
Defined.

(** ** Cell 24: the difference on aligned columns *)

Lemma align_pairs_seq (g s d : list float) :
  zip_with sub g s = Some d ->
  map (fun k => match nth_error g k, nth_error s k with
                | Some u, Some v => u - v
                | _, _ => nan
                end) (seq 0 (length g))
  = d.
Proof.
  revert s d. induction g as [|a g IH]; intros [|b s] d H; simpl in H;
    try discriminate.
  - now injection H as <-.
  - destruct (zip_with sub g s) as [r|] eqn:E; [|discriminate].
    injection H as <-. cbn [length seq map nth_error]. f_equal.
    rewrite <- seq_shift, map_map. cbn [nth_error]. now apply IH.
Qed.

Lemma seq_from a n : seq a n = map (Nat.add a) (seq 0 n).
Proof.
  induction a as [|a IH]; [now rewrite map_id|].
  rewrite <- seq_shift, IH, map_map. reflexivity.
Qed.

Lemma map_constant {A B} (f : A -> B) c l :
  (forall x, In x l -> f x = c) -> map f l = repeat c (length l).
Proof.
  induction l as [|x l IH]; intros H; [reflexivity|].
  cbn [map length repeat]. rewrite H by now left.
  f_equal. apply IH. intros; apply H; now right.
Qed.

(** Aligning a column on the rows from [train] on with a column on all
    rows: [nan] on the first [train] rows, the differences on the rest. *)
Lemma align_sub_tail train g full d :
  length full = (train + length g)%nat ->
  zip_with sub g (skipn train full) = Some d ->
  align_sub train g full = repeat nan train ++ d.
Proof.
  intros HL Ed. unfold align_sub.
  rewrite HL, Nat.max_id, seq_app, map_app. f_equal.
  - rewrite (map_constant _ nan (seq 0 train)), length_seq; [reflexivity|].
    intros i Hi. apply in_seq in Hi.
    destruct (Nat.leb train i) eqn:E; [apply Nat.leb_le in E; lia | reflexivity].
  - rewrite <- (align_pairs_seq g (skipn train full) d Ed).
    cbn [Nat.add]. rewrite (seq_from train), map_map. apply map_ext. intros k.
    assert (El : Nat.leb train (train + k) = true) by (apply Nat.leb_le; lia).
    rewrite El. replace (train + k - train)%nat with k by lia.
    now rewrite nth_error_skipn.
Qed.

Lemma notna_aligned train d : notna (repeat nan train ++ d) = notna d.
Proof.
  unfold notna. rewrite filter_app.
  assert (E : filter (fun v => negb (is_nan v)) (repeat nan train) = []).
  { induction train as [|k IH]; [reflexivity|]. cbn [repeat filter].
    change (is_nan nan) with true. exact IH. }
  now rewrite E.
Qed.

Lemma gamma_hat_pi_defined (pi_hat : list bool) g1 g0 :
  length g1 = length pi_hat -> length g0 = length pi_hat ->
  exists g, gamma_hat_pi pi_hat g1 g0 = Some g /\ length g = length pi_hat.
Proof.
  intros L1 L0. unfold gamma_hat_pi, vadd.
  zip_step t1 E1 Lt1. zip_step t2 E2 Lt2. zip_step g Eg Lg.
  exists g. split; [reflexivity | congruence].
Qed.

Section DifferenceFacts.

Variable np_mean : list float -> float.
Variable np_std : list float -> float.
Variable np_sqrt : float -> float.

(** Cell 24.  [gamma_hat_pi] holds the evaluation rows and [gamma_hat_0]
    all rows, so their difference has one entry per row of the data set:
    [nan] on the training rows and [gamma_hat_pi - gamma_hat_0] on the
    evaluation rows.  The estimate is the mean of the differences [d] on
    the evaluation rows, and its standard error is [np.std] of [d] divided
    by the square root of the number of all rows, not of the evaluation
    rows. *)
Theorem diff_aipw_divides_by_all_rows train pi_hat g1 g0 :
  length g1 = length g0 ->
  length g0 = (train + length pi_hat)%nat ->
  exists g d,
    gamma_hat_pi pi_hat (skipn train g1) (skipn train g0) = Some g /\
    zip_with sub g (skipn train g0) = Some d /\
    length d = length pi_hat /\
    align_sub train g g0 = repeat nan train ++ d /\
    diff_aipw np_mean np_std np_sqrt train pi_hat g1 g0
    = Some (np_mean (notna d),
            np_std (notna d) / np_sqrt (of_nat (length g0))).
Proof.
  intros H1 H0.
  assert (T1 : length (skipn train g1) = length pi_hat)
    by (rewrite length_skipn; lia).
  assert (T0 : length (skipn train g0) = length pi_hat)
    by (rewrite length_skipn; lia).
  destruct (gamma_hat_pi_defined pi_hat _ _ T1 T0) as (g & E & L).
  destruct (zip_with_defined sub g (skipn train g0)) as [d Ed]; [congruence|].
  destruct (zip_with_length _ _ _ _ Ed) as [_ Ld].
  assert (A : align_sub train g g0 = repeat nan train ++ d)
    by (apply align_sub_tail; [lia | exact Ed]).
  exists g, d. repeat split; try assumption; try congruence.
  unfold diff_aipw. rewrite E. cbn [obind].
  rewrite A, notna_aligned, length_app, repeat_length.
  replace (train + length d)%nat with (length g0) by lia.
  reflexivity.
Qed.

End DifferenceFacts.

Lemma diff_aipw_divides_by_all_rows_witness :
  exists g d,
    gamma_hat_pi [true; false] (skipn 1 [1; 2; 3]) (skipn 1 [0.5; 1; 4]) = Some g /\
    zip_with sub g (skipn 1 [0.5; 1; 4]) = Some d /\
    length d = 2%nat /\
    align_sub 1 g [0.5; 1; 4] = repeat nan 1 ++ d /\
    diff_aipw mean_seq std_seq sqrt 1 [true; false] [1; 2; 3] [0.5; 1; 4]
    = Some (mean_seq (notna d),
            std_seq (notna d) / sqrt (of_nat 3)).
Proof.
  apply (diff_aipw_divides_by_all_rows mean_seq std_seq sqrt 1 [true; false]
           [1; 2; 3] [0.5; 1; 4]); reflexivity.
Defined.

(** ** Cost curves: no budget, no stopping rule *)







Section CostCurveFacts.

Variable np_sum : list float -> float.
Variable py_sum : list float -> float.


End CostCurveFacts.



End B64Facts.
